(** * Real-ESRGAN feature-extraction blocks ([real_esrgan/layers/blocks.py])

    A shallow embedding of [ResidualDenseBlock], [ResidualResidualDenseBlock]
    and [ResidualFeatureDistillationBlock], together with the part of the
    PyTorch tensor library their [forward] methods call ([nn.Conv2d],
    [nn.LeakyReLU], [nn.Identity], [torch.cat], [torch.mul], [torch.add]).

    Tensor elements are kept abstract behind the [Scalar] interface: the
    topology of the blocks does not depend on the arithmetic, and the few
    results that do say which laws of the arithmetic they use. *)

From Stdlib Require Import QArith Qcanon Lia.
From Stdlib Require PrimFloat.
From stdpp Require Import base tactics option list gmap.

Local Open Scope nat_scope.

(** ** Scalars *)

(** The element type of a tensor.  [flit] reads a Python float literal,
    given as the rational it denotes ([0.2] is [2 # 10]). *)
Class Scalar (F : Type) := {
  fzero : F;
  fadd : F → F → F;
  fmul : F → F → F;
  fle : F → F → bool;
  flit : Q → F
}.

(** Commutativity of the sum and of the product. *)
Class ScalarComm (F : Type) `{Scalar F} : Prop := {
  fadd_comm : ∀ a b : F, fadd a b = fadd b a;
  fmul_comm : ∀ a b : F, fmul a b = fmul b a
}.

(** Laws of exact arithmetic.  Floating-point arithmetic does not have
    [fmul_0_l]: zero times an infinity is not a number.  Only the results
    that name this class use these laws. *)
Class ScalarLaws (F : Type) `{Scalar F} : Prop := {
  scalar_comm :: ScalarComm F;
  fadd_0_l : ∀ a : F, fadd fzero a = a;
  fmul_0_l : ∀ a : F, fmul fzero a = fzero
}.

(** What exact and floating-point arithmetic alike have of zero: facts about
    the constants [0] and [0.2] only. *)
Class ZeroArith (F : Type) `{Scalar F} : Prop := {
  zero_add_zero : fadd fzero fzero = fzero;
  zero_mul_zero : fmul fzero fzero = fzero;
  zero_le_zero : fle fzero fzero = true;
  zero_mul_scale : fmul fzero (flit 0.2) = fzero
}.

(** Exact rationals in canonical form: the instance used to run the model. *)
#[export] Instance Qc_Scalar : Scalar Qc := {
  fzero := Q2Qc 0;
  fadd := Qcplus;
  fmul := Qcmult;
  fle := λ a b, if Qclt_le_dec b a then false else true;
  flit := Q2Qc
}.

(** IEEE 754 binary64 numbers, with their infinities and NaN. *)
Fixpoint float_of_positive (p : positive) : PrimFloat.float :=
  match p with
  | xH => PrimFloat.one
  | xO p => PrimFloat.mul PrimFloat.two (float_of_positive p)
  | xI p => PrimFloat.add (PrimFloat.mul PrimFloat.two (float_of_positive p)) PrimFloat.one
  end.

Definition float_of_Z (z : Z) : PrimFloat.float :=
  match z with
  | Z0 => PrimFloat.zero
  | Zpos p => float_of_positive p
  | Zneg p => PrimFloat.opp (float_of_positive p)
  end.

(** A decimal literal: the quotient, rounded once. *)
Definition float_of_Q (q : Q) : PrimFloat.float :=
  PrimFloat.div (float_of_Z (Qnum q)) (float_of_positive (Qden q)).

#[export] Instance float_Scalar : Scalar PrimFloat.float := {
  fzero := PrimFloat.zero;
  fadd := PrimFloat.add;
  fmul := PrimFloat.mul;
  fle := PrimFloat.leb;
  flit := float_of_Q
}.

(** ** Exceptions *)

(** Every failure of the tensor library surfaces in Python as a
    [RuntimeError]; the constructors record which check raised it. *)
Inductive RuntimeError : Type :=
| ChannelMismatch     (* conv2d: input has the wrong number of channels *)
| KernelTooLarge      (* conv2d: kernel larger than the padded input *)
| NonPositiveStride   (* conv2d: stride 0 *)
| NoOutputChannels    (* conv2d: weight without an output channel *)
| EmptyInput          (* conv2d: no input element for a non-empty output *)
| CatEmptyList        (* cat: empty list of tensors *)
| CatSizeMismatch     (* cat: sizes differ outside the cat dimension *)
| BroadcastMismatch.  (* add: shapes that cannot be broadcast *)

(** A call returns a value or raises an exception of type [E]. *)
Inductive result (E A : Type) : Type :=
| Ok (a : A)
| Raise (e : E).
Arguments Ok {E A} a.
Arguments Raise {E A} e.

#[export] Instance result_ret {E} : MRet (result E) := λ A a, Ok a.
#[export] Instance result_fmap {E} : FMap (result E) := λ A B f m,
  match m with
  | Ok a => Ok (f a)
  | Raise e => Raise e
  end.
#[export] Instance result_bind {E} : MBind (result E) := λ A B f m,
  match m with
  | Ok a => f a
  | Raise e => Raise e
  end.

Definition is_ok {E A} (r : result E A) : bool :=
  match r with Ok _ => true | Raise _ => false end.

(** ** Tensors *)

(** A 4-D shape [(N, C, H, W)]. *)
Record Shape : Type := mkShape { dimN : nat; dimC : nat; dimH : nat; dimW : nat }.

#[export] Instance Shape_eq_dec : EqDecision Shape.
Proof. solve_decision. Defined.

(** The number of elements of a tensor of that shape. *)
Definition numel (s : Shape) : nat := dimN s * dimC s * dimH s * dimW s.

Section Tensors.
Context {F : Type} `{Scalar F}.

(** A dense 4-D tensor: its shape and its element at each index.  Only the
    elements at indices inside the shape are part of the tensor. *)
Record Tensor : Type := mkTensor {
  shape : Shape;
  tval : nat → nat → nat → nat → F
}.

Definition in_shape (s : Shape) (n c h w : nat) : Prop :=
  n < dimN s ∧ c < dimC s ∧ h < dimH s ∧ w < dimW s.

(** [torch.equal]: same shape and same elements. *)
Definition tensor_eq (a b : Tensor) : Prop :=
  shape a = shape b ∧
  ∀ n c h w, in_shape (shape a) n c h w → tval a n c h w = tval b n c h w.

(** Two outcomes agree when both raise, or both return equal tensors. *)
Definition result_eq {E1 E2} (r1 : result E1 Tensor) (r2 : result E2 Tensor) : Prop :=
  match r1, r2 with
  | Ok a, Ok b => tensor_eq a b
  | Raise _, Raise _ => True
  | _, _ => False
  end.

(** The elements in row-major (N, C, H, W) order. *)
Definition to_list (a : Tensor) : list F :=
  n ← seq 0 (dimN (shape a));
  c ← seq 0 (dimC (shape a));
  h ← seq 0 (dimH (shape a));
  w ← seq 0 (dimW (shape a));
  [tval a n c h w].

(** A tensor holding the same value everywhere. *)
Definition full (s : Shape) (v : F) : Tensor := mkTensor s (λ _ _ _ _, v).

(** [fsum n f] accumulates [f 0], ..., [f (n-1)] from [fzero]. *)
Fixpoint fsum (n : nat) (f : nat → F) : F :=
  match n with
  | 0 => fzero
  | S k => fadd (fsum k f) (f k)
  end.

(** ** The tensor library *)

(** *** [torch.cat(tensors, 1)] *)

Definition same_NHW (a b : Shape) : bool :=
  bool_decide (dimN a = dimN b) && bool_decide (dimH a = dimH b)
  && bool_decide (dimW a = dimW b).

(** Channels of [a] first, then the channels of [b]. *)
Definition cat2 (a b : Tensor) : result RuntimeError Tensor :=
  if same_NHW (shape a) (shape b) then
    Ok (mkTensor
          (mkShape (dimN (shape a)) (dimC (shape a) + dimC (shape b))
                   (dimH (shape a)) (dimW (shape a)))
          (λ n c h w, if c <? dimC (shape a) then tval a n c h w
                      else tval b n (c - dimC (shape a)) h w))
  else Raise CatSizeMismatch.

Definition torch_cat (tensors : list Tensor) : result RuntimeError Tensor :=
  match tensors with
  | [] => Raise CatEmptyList
  | t :: rest => foldl (λ acc u, a ← acc; cat2 a u) (Ok t) rest
  end.

(** *** [torch.mul(input, other)] with a Python number as [other] *)

Definition torch_mul (input : Tensor) (other : F) : Tensor :=
  mkTensor (shape input) (λ n c h w, fmul (tval input n c h w) other).

(** *** [torch.add(input, other)] with broadcasting *)

(** Two sizes are compatible when they are equal or one of them is 1. *)
Definition broadcast_dim (a b : nat) : option nat :=
  if bool_decide (a = b) then Some a
  else if bool_decide (a = 1) then Some b
  else if bool_decide (b = 1) then Some a
  else None.

Definition broadcast_shape (a b : Shape) : option Shape :=
  n ← broadcast_dim (dimN a) (dimN b);
  c ← broadcast_dim (dimC a) (dimC b);
  h ← broadcast_dim (dimH a) (dimH b);
  w ← broadcast_dim (dimW a) (dimW b);
  Some (mkShape n c h w).

(** The index read in an operand whose size along a dimension is [d]. *)
Definition bidx (d i : nat) : nat := if bool_decide (d = 1) then 0 else i.

Definition expand (a : Tensor) (n c h w : nat) : F :=
  tval a (bidx (dimN (shape a)) n) (bidx (dimC (shape a)) c)
         (bidx (dimH (shape a)) h) (bidx (dimW (shape a)) w).

Definition torch_add (input other : Tensor) : result RuntimeError Tensor :=
  match broadcast_shape (shape input) (shape other) with
  | Some s => Ok (mkTensor s (λ n c h w,
                    fadd (expand input n c h w) (expand other n c h w)))
  | None => Raise BroadcastMismatch
  end.

(** *** [nn.LeakyReLU(negative_slope, inplace)] *)

Record LeakyReLU : Type := nn_LeakyReLU {
  negative_slope : F;
  inplace : bool
}.

(** [x if x >= 0 else negative_slope * x] *)
Definition leaky (slope x : F) : F :=
  if fle fzero x then x else fmul slope x.

(** The value computed; with [inplace] it is also stored in the input's
    buffer, which the heap model below accounts for. *)
Definition LeakyReLU_forward (m : LeakyReLU) (x : Tensor) : Tensor :=
  mkTensor (shape x) (λ n c h w, leaky (negative_slope m) (tval x n c h w)).

(** *** [nn.Identity()] *)

Definition Identity_forward (x : Tensor) : Tensor := x.

(** *** [nn.Conv2d(in_channels, out_channels, kernel_size, stride, padding)] *)

Record Conv2d : Type := mkConv2d {
  in_channels : nat;
  out_channels : nat;
  kernel_size : nat;
  stride : nat;
  padding : nat;
  weight : nat → nat → nat → nat → F;   (* (out_channels, in_channels, k, k) *)
  bias : nat → F                        (* (out_channels) *)
}.

(** The learned parameters of one convolution, as a checkpoint supplies them. *)
Record ConvParams : Type := mkConvParams {
  p_weight : nat → nat → nat → nat → F;
  p_bias : nat → F
}.

Definition nn_Conv2d (in_ch out_ch k : nat) (s p : nat) (ps : ConvParams) : Conv2d :=
  mkConv2d in_ch out_ch k s p (p_weight ps) (p_bias ps).

(** The input with [p] rows and columns of zeros on each border. *)
Definition padded (x : Tensor) (p : nat) (n c i j : nat) : F :=
  if (p <=? i) && (i <? dimH (shape x) + p) && (p <=? j) && (j <? dimW (shape x) + p)
  then tval x n c (i - p) (j - p)
  else fzero.

Definition conv_out_size (size k s p : nat) : nat := (size + 2 * p - k) / s + 1.

Definition conv2d_out (m : Conv2d) (x : Tensor) : Tensor :=
  mkTensor
    (mkShape (dimN (shape x)) (out_channels m)
             (conv_out_size (dimH (shape x)) (kernel_size m) (stride m) (padding m))
             (conv_out_size (dimW (shape x)) (kernel_size m) (stride m) (padding m)))
    (λ n oc y xx,
       fadd (fsum (in_channels m) (λ ic,
               fsum (kernel_size m) (λ ky,
                 fsum (kernel_size m) (λ kx,
                   fmul (weight m oc ic ky kx)
                        (padded x (padding m) n ic
                                (y * stride m + ky) (xx * stride m + kx))))))
            (bias m oc)).

(** The checks of the library, in its order: the stride, the weight (at
    least one output channel), the channels of the input, the kernel against
    the padded input.  An input with an empty batch or without channels is
    not convolved: the library reshapes its zero elements to the shape of the
    output, which fails unless the output has no element either. *)
Definition Conv2d_forward (m : Conv2d) (x : Tensor) : result RuntimeError Tensor :=
  if bool_decide (stride m = 0) then Raise NonPositiveStride
  else if bool_decide (out_channels m = 0) then Raise NoOutputChannels
  else if negb (bool_decide (dimC (shape x) = in_channels m)) then Raise ChannelMismatch
  else if (dimH (shape x) + 2 * padding m <? kernel_size m)
          || (dimW (shape x) + 2 * padding m <? kernel_size m)
       then Raise KernelTooLarge
  else if (bool_decide (dimN (shape x) = 0) || bool_decide (dimC (shape x) = 0))
          && negb (bool_decide (numel (shape (conv2d_out m x)) = 0))
       then Raise EmptyInput
  else Ok (conv2d_out m x).

End Tensors.

Arguments Tensor F : clear implicits.
Arguments LeakyReLU F : clear implicits.
Arguments Conv2d F : clear implicits.
Arguments ConvParams F : clear implicits.

(** ** The blocks *)

(** *** [class ResidualDenseBlock(nn.Module)] *)
Module ResidualDenseBlock.
Section Block.
Context {F : Type} `{Scalar F}.

Record t : Type := mk {
  conv_1 : Conv2d F;
  conv_2 : Conv2d F;
  conv_3 : Conv2d F;
  conv_4 : Conv2d F;
  conv_5 : Conv2d F;
  leaky_relu : LeakyReLU F
}.

(** The parameters of the five convolutions. *)
Record state_dict : Type := mk_state {
  sd_1 : ConvParams F;
  sd_2 : ConvParams F;
  sd_3 : ConvParams F;
  sd_4 : ConvParams F;
  sd_5 : ConvParams F
}.

Definition init (channels growth_channels : nat) (sd : state_dict) : t :=
  {| conv_1 := nn_Conv2d (channels + growth_channels * 0) growth_channels 3 1 1 (sd_1 sd);
     conv_2 := nn_Conv2d (channels + growth_channels * 1) growth_channels 3 1 1 (sd_2 sd);
     conv_3 := nn_Conv2d (channels + growth_channels * 2) growth_channels 3 1 1 (sd_3 sd);
     conv_4 := nn_Conv2d (channels + growth_channels * 3) growth_channels 3 1 1 (sd_4 sd);
     conv_5 := nn_Conv2d (channels + growth_channels * 4) channels 3 1 1 (sd_5 sd);
     leaky_relu := nn_LeakyReLU (flit 0.2) true |}.

Definition forward (self : t) (x : Tensor F) : result RuntimeError (Tensor F) :=
  let identity := x in
  out_1 ← LeakyReLU_forward (leaky_relu self) <$> Conv2d_forward (conv_1 self) x;
  out_2 ← LeakyReLU_forward (leaky_relu self) <$>
            (torch_cat [x; out_1] ≫= Conv2d_forward (conv_2 self));
  out_3 ← LeakyReLU_forward (leaky_relu self) <$>
            (torch_cat [x; out_1; out_2] ≫= Conv2d_forward (conv_3 self));
  out_4 ← LeakyReLU_forward (leaky_relu self) <$>
            (torch_cat [x; out_1; out_2; out_3] ≫= Conv2d_forward (conv_4 self));
  out_5 ← Identity_forward <$>
            (torch_cat [x; out_1; out_2; out_3; out_4] ≫= Conv2d_forward (conv_5 self));
  let out := torch_mul out_5 (flit 0.2) in
  torch_add out identity.

End Block.
Arguments t F : clear implicits.
Arguments state_dict F : clear implicits.
End ResidualDenseBlock.

(** *** [class ResidualResidualDenseBlock(nn.Module)] *)
Module ResidualResidualDenseBlock.
Section Block.
Context {F : Type} `{Scalar F}.

Record t : Type := mk {
  rdb_1 : ResidualDenseBlock.t F;
  rdb_2 : ResidualDenseBlock.t F;
  rdb_3 : ResidualDenseBlock.t F
}.

Record state_dict : Type := mk_state {
  sd_1 : ResidualDenseBlock.state_dict F;
  sd_2 : ResidualDenseBlock.state_dict F;
  sd_3 : ResidualDenseBlock.state_dict F
}.

Definition init (channels growth_channels : nat) (sd : state_dict) : t :=
  {| rdb_1 := ResidualDenseBlock.init channels growth_channels (sd_1 sd);
     rdb_2 := ResidualDenseBlock.init channels growth_channels (sd_2 sd);
     rdb_3 := ResidualDenseBlock.init channels growth_channels (sd_3 sd) |}.

Definition forward (self : t) (x : Tensor F) : result RuntimeError (Tensor F) :=
  let identity := x in
  out ← ResidualDenseBlock.forward (rdb_1 self) x;
  out ← ResidualDenseBlock.forward (rdb_2 self) out;
  out ← ResidualDenseBlock.forward (rdb_3 self) out;
  let out := torch_mul out (flit 0.2) in
  torch_add out identity.

End Block.
Arguments t F : clear implicits.
Arguments state_dict F : clear implicits.
End ResidualResidualDenseBlock.

(** *** [class ResidualFeatureDistillationBlock(nn.Module)] *)
Module ResidualFeatureDistillationBlock.
Section Block.
Context {F : Type} `{Scalar F}.

(** [EnhancedSpatialAttention] is referred to by [__init__] and defined
    outside this file: a class which, given the channel count, builds a
    module that maps a tensor to a tensor or raises. *)
Variable EnhancedSpatialAttention : nat → Tensor F → result RuntimeError (Tensor F).

Record t : Type := mk {
  distilled_channels : nat;
  remaining_channels : nat;
  conv_1_distilled : Conv2d F;
  conv_1_remaining : Conv2d F;
  conv_2_distilled : Conv2d F;
  conv_2_remaining : Conv2d F;
  conv_3_distilled : Conv2d F;
  conv_3_remaining : Conv2d F;
  conv_4 : Conv2d F;
  conv_5 : Conv2d F;
  esa : Tensor F → result RuntimeError (Tensor F);
  leaky_relu : LeakyReLU F
}.

Record state_dict : Type := mk_state {
  sd_1_distilled : ConvParams F;
  sd_1_remaining : ConvParams F;
  sd_2_distilled : ConvParams F;
  sd_2_remaining : ConvParams F;
  sd_3_distilled : ConvParams F;
  sd_3_remaining : ConvParams F;
  sd_4 : ConvParams F;
  sd_5 : ConvParams F
}.

Definition init (channels : nat) (sd : state_dict) : t :=
  let distilled_channels := channels / 2 in
  let remaining_channels := channels in
  {| distilled_channels := distilled_channels;
     remaining_channels := remaining_channels;
     conv_1_distilled := nn_Conv2d channels distilled_channels 1 1 0 (sd_1_distilled sd);
     conv_1_remaining := nn_Conv2d channels remaining_channels 3 1 1 (sd_1_remaining sd);
     conv_2_distilled := nn_Conv2d remaining_channels distilled_channels 1 1 0 (sd_2_distilled sd);
     conv_2_remaining := nn_Conv2d remaining_channels remaining_channels 3 1 1 (sd_2_remaining sd);
     conv_3_distilled := nn_Conv2d remaining_channels distilled_channels 1 1 0 (sd_3_distilled sd);
     conv_3_remaining := nn_Conv2d remaining_channels remaining_channels 3 1 1 (sd_3_remaining sd);
     conv_4 := nn_Conv2d remaining_channels distilled_channels 3 1 1 (sd_4 sd);
     conv_5 := nn_Conv2d (distilled_channels * 4) channels 1 1 0 (sd_5 sd);
     esa := EnhancedSpatialAttention channels;
     leaky_relu := nn_LeakyReLU (flit 0.05) true |}.

(** Lines 101–122 of [forward]: the tensor handed to [conv_5]. *)
Definition forward_cat (self : t) (x : Tensor F) : result RuntimeError (Tensor F) :=
  distilled_conv_1 ← Conv2d_forward (conv_1_distilled self) x;
  let distilled_conv_1 := LeakyReLU_forward (leaky_relu self) distilled_conv_1 in
  remaining_conv_1 ← Conv2d_forward (conv_1_remaining self) x;
  remaining_conv_1 ← torch_add remaining_conv_1 x;
  let remaining_conv_1 := LeakyReLU_forward (leaky_relu self) remaining_conv_1 in

  distilled_conv_2 ← Conv2d_forward (conv_2_distilled self) remaining_conv_1;
  let distilled_conv_2 := LeakyReLU_forward (leaky_relu self) distilled_conv_2 in
  remaining_conv_2 ← Conv2d_forward (conv_2_remaining self) remaining_conv_1;
  remaining_conv_2 ← torch_add remaining_conv_2 remaining_conv_1;
  let remaining_conv_2 := LeakyReLU_forward (leaky_relu self) remaining_conv_2 in

  distilled_conv_3 ← Conv2d_forward (conv_3_distilled self) remaining_conv_2;
  let distilled_conv_3 := LeakyReLU_forward (leaky_relu self) distilled_conv_3 in
  remaining_conv_3 ← Conv2d_forward (conv_3_remaining self) remaining_conv_2;
  remaining_conv_3 ← torch_add remaining_conv_3 remaining_conv_2;
  let remaining_conv_3 := LeakyReLU_forward (leaky_relu self) remaining_conv_3 in

  remaining_conv_4 ← Conv2d_forward (conv_4 self) remaining_conv_3;
  let remaining_conv_4 := LeakyReLU_forward (leaky_relu self) remaining_conv_4 in

  torch_cat [distilled_conv_1; distilled_conv_2; distilled_conv_3; remaining_conv_4].

(** The whole of [forward]. *)
Definition forward (self : t) (x : Tensor F) : result RuntimeError (Tensor F) :=
  out ← forward_cat self x;
  out ← Conv2d_forward (conv_5 self) out;
  esa self out.

End Block.
Arguments t F : clear implicits.
Arguments state_dict F : clear implicits.
End ResidualFeatureDistillationBlock.

(** ** The pipelines as the specification words them *)

(** The tensor operations of the specification (section 4.1) and the three
    forward pipelines (sections 4.3 to 4.5), written from its text.  They are
    what [forward] is compared with; convolutions and the attention gate
    enter as operators. *)
Module Spec.

Inductive Error : Type := ShapeError | ConfigError.

Section Pipelines.
Context {F : Type} `{Scalar F}.

(** Operators: a tensor in, a tensor out or a failure. *)
Local Abbreviation Op := (Tensor F → result Error (Tensor F)).

(** A call of the tensor library, as an operator of the specification. *)
Definition operator (f : Tensor F → result RuntimeError (Tensor F)) : Op := λ x,
  match f x with
  | Ok y => Ok y
  | Raise _ => Raise ShapeError
  end.

(** A convolution of a block. *)
Definition Conv2D (m : Conv2d F) : Op := operator (Conv2d_forward m).

(** [concat_channels]: along the channel axis, in the given order; fails if
    any N, H, W mismatch. *)
Fixpoint concat_channels (tensors : list (Tensor F)) : result Error (Tensor F) :=
  match tensors with
  | [] => Raise ShapeError
  | [t] => Ok t
  | t :: rest =>
      r ← concat_channels rest;
      if bool_decide (dimN (shape t) = dimN (shape r) ∧ dimH (shape t) = dimH (shape r)
                      ∧ dimW (shape t) = dimW (shape r))
      then Ok (mkTensor
                 (mkShape (dimN (shape t)) (dimC (shape t) + dimC (shape r))
                          (dimH (shape t)) (dimW (shape t)))
                 (λ n c h w, if c <? dimC (shape t) then tval t n c h w
                             else tval r n (c - dimC (shape t)) h w))
      else Raise ShapeError
  end.

(** [add]: elementwise sum; fails on shape mismatch. *)
Definition add (a b : Tensor F) : result Error (Tensor F) :=
  if bool_decide (shape a = shape b)
  then Ok (mkTensor (shape a) (λ n c h w, fadd (tval a n c h w) (tval b n c h w)))
  else Raise ShapeError.

(** [scale]: elementwise multiply by a scalar; always succeeds. *)
Definition scale (k : F) (a : Tensor F) : Tensor F :=
  mkTensor (shape a) (λ n c h w, fmul k (tval a n c h w)).

(** [leaky_relu]: [x >= 0 ? x : negative_slope * x], elementwise. *)
Definition leaky_relu (a : Tensor F) (negative_slope : F) : Tensor F :=
  mkTensor (shape a)
    (λ n c h w, let x := tval a n c h w in
                if fle fzero x then x else fmul negative_slope x).

(** Section 4.3. *)
Definition RDB (Conv1 Conv2 Conv3 Conv4 Conv5 : Op) (x : Tensor F)
  : result Error (Tensor F) :=
  c1 ← Conv1 x;
  let out1 := leaky_relu c1 (flit 0.2) in
  c2 ← concat_channels [x; out1] ≫= Conv2;
  let out2 := leaky_relu c2 (flit 0.2) in
  c3 ← concat_channels [x; out1; out2] ≫= Conv3;
  let out3 := leaky_relu c3 (flit 0.2) in
  c4 ← concat_channels [x; out1; out2; out3] ≫= Conv4;
  let out4 := leaky_relu c4 (flit 0.2) in
  out5 ← concat_channels [x; out1; out2; out3; out4] ≫= Conv5;
  add x (scale (flit 0.2) out5).

(** The pipeline of section 4.3 over the convolutions of a block. *)
Definition RDB_block (self : ResidualDenseBlock.t F) : Tensor F → result Error (Tensor F) :=
  RDB (Conv2D (ResidualDenseBlock.conv_1 self)) (Conv2D (ResidualDenseBlock.conv_2 self))
      (Conv2D (ResidualDenseBlock.conv_3 self)) (Conv2D (ResidualDenseBlock.conv_4 self))
      (Conv2D (ResidualDenseBlock.conv_5 self)).

(** Section 4.4. *)
Definition RRDB (RDB1 RDB2 RDB3 : Op) (x : Tensor F) : result Error (Tensor F) :=
  o1 ← RDB1 x;
  o2 ← RDB2 o1;
  out ← RDB3 o2;
  add x (scale (flit 0.2) out).

(** Section 4.5. *)
Definition RFDB (Conv1d Conv1r Conv2d Conv2r Conv3d Conv3r Conv4 Conv5 : Op)
    (AttentionGate : Op) (x : Tensor F) : result Error (Tensor F) :=
  c ← Conv1d x; let d1 := leaky_relu c (flit 0.05) in
  c ← Conv1r x; s ← add c x; let r1 := leaky_relu s (flit 0.05) in
  c ← Conv2d r1; let d2 := leaky_relu c (flit 0.05) in
  c ← Conv2r r1; s ← add c r1; let r2 := leaky_relu s (flit 0.05) in
  c ← Conv3d r2; let d3 := leaky_relu c (flit 0.05) in
  c ← Conv3r r2; s ← add c r2; let r3 := leaky_relu s (flit 0.05) in
  c ← Conv4 r3; let r4 := leaky_relu c (flit 0.05) in
  fused ← concat_channels [d1; d2; d3; r4] ≫= Conv5;
  AttentionGate fused.

(** The pipeline of section 4.5 over the convolutions and the gate of a block. *)
Definition RFDB_block (self : ResidualFeatureDistillationBlock.t F)
  : Tensor F → result Error (Tensor F) :=
  RFDB (Conv2D (ResidualFeatureDistillationBlock.conv_1_distilled self))
       (Conv2D (ResidualFeatureDistillationBlock.conv_1_remaining self))
       (Conv2D (ResidualFeatureDistillationBlock.conv_2_distilled self))
       (Conv2D (ResidualFeatureDistillationBlock.conv_2_remaining self))
       (Conv2D (ResidualFeatureDistillationBlock.conv_3_distilled self))
       (Conv2D (ResidualFeatureDistillationBlock.conv_3_remaining self))
       (Conv2D (ResidualFeatureDistillationBlock.conv_4 self))
       (Conv2D (ResidualFeatureDistillationBlock.conv_5 self))
       (operator (ResidualFeatureDistillationBlock.esa self)).

End Pipelines.
End Spec.

(** ** Buffers and in-place operations *)

(** In Python a tensor variable is a reference to a buffer, and
    [nn.LeakyReLU(_, True)] overwrites the buffer of its argument.  This
    second embedding keeps the buffers in a heap: every library call reads its
    operands from the heap and stores its result in a freshly allocated
    buffer, except the in-place activation, which overwrites, and
    [nn.Identity], which returns its argument. *)
Module Heap.
Section Heap.
Context {F : Type} `{Scalar F}.

Local Abbreviation ref := nat.
Local Abbreviation heap := (gmap nat (Tensor F)).

#[export] Instance Tensor_inhabited : Inhabited (Tensor F) :=
  populate (mkTensor (mkShape 0 0 0 0) (λ _ _ _ _, fzero)).

(** A call that may update the heap, and returns or raises. *)
Definition St (A : Type) : Type := heap → result RuntimeError (A * heap).

#[export] Instance St_ret : MRet St := λ A a h, Ok (a, h).
#[export] Instance St_bind : MBind St := λ A B f m h,
  match m h with
  | Ok (a, h') => f a h'
  | Raise e => Raise e
  end.

Definition alloc (t : Tensor F) : St ref := λ h,
  let r := fresh (dom h) in Ok (r, <[r := t]> h).

Definition read (r : ref) : St (Tensor F) := λ h, Ok (h !!! r, h).

Definition write (r : ref) (t : Tensor F) : St unit := λ h, Ok ((), <[r := t]> h).

Definition lift {A} (p : result RuntimeError A) : St A := λ h,
  match p with
  | Ok a => Ok (a, h)
  | Raise e => Raise e
  end.

Definition Conv2d_call (m : Conv2d F) (x : ref) : St ref :=
  t ← read x;
  y ← lift (Conv2d_forward m t);
  alloc y.

Definition LeakyReLU_call (m : LeakyReLU F) (x : ref) : St ref :=
  t ← read x;
  if inplace m then (_ ← write x (LeakyReLU_forward m t); mret x)
  else alloc (LeakyReLU_forward m t).

Definition Identity_call (x : ref) : St ref := mret x.

Definition torch_cat_call (tensors : list ref) : St ref :=
  ts ← (λ h, Ok ((λ r, h !!! r) <$> tensors, h)) : St (list (Tensor F));
  y ← lift (torch_cat ts);
  alloc y.

Definition torch_mul_call (input : ref) (other : F) : St ref :=
  t ← read input;
  alloc (torch_mul t other).

Definition torch_add_call (input other : ref) : St ref :=
  a ← read input;
  b ← read other;
  y ← lift (torch_add a b);
  alloc y.

(** [ResidualDenseBlock.forward] *)
Definition RDB_forward (self : ResidualDenseBlock.t F) (x : ref) : St ref :=
  let identity := x in
  out_1 ← Conv2d_call (ResidualDenseBlock.conv_1 self) x
            ≫= LeakyReLU_call (ResidualDenseBlock.leaky_relu self);
  out_2 ← (torch_cat_call [x; out_1] ≫= Conv2d_call (ResidualDenseBlock.conv_2 self))
            ≫= LeakyReLU_call (ResidualDenseBlock.leaky_relu self);
  out_3 ← (torch_cat_call [x; out_1; out_2] ≫= Conv2d_call (ResidualDenseBlock.conv_3 self))
            ≫= LeakyReLU_call (ResidualDenseBlock.leaky_relu self);
  out_4 ← (torch_cat_call [x; out_1; out_2; out_3]
             ≫= Conv2d_call (ResidualDenseBlock.conv_4 self))
            ≫= LeakyReLU_call (ResidualDenseBlock.leaky_relu self);
  out_5 ← (torch_cat_call [x; out_1; out_2; out_3; out_4]
             ≫= Conv2d_call (ResidualDenseBlock.conv_5 self))
            ≫= Identity_call;
  out ← torch_mul_call out_5 (flit 0.2);
  torch_add_call out identity.

(** [ResidualResidualDenseBlock.forward] *)
Definition RRDB_forward (self : ResidualResidualDenseBlock.t F) (x : ref) : St ref :=
  let identity := x in
  out ← RDB_forward (ResidualResidualDenseBlock.rdb_1 self) x;
  out ← RDB_forward (ResidualResidualDenseBlock.rdb_2 self) out;
  out ← RDB_forward (ResidualResidualDenseBlock.rdb_3 self) out;
  out ← torch_mul_call out (flit 0.2);
  torch_add_call out identity.

(** [ResidualFeatureDistillationBlock.forward]; [esa_call] is the call of
    [self.esa] on a buffer. *)
Definition RFDB_forward (self : ResidualFeatureDistillationBlock.t F)
    (esa_call : ref → St ref) (x : ref) : St ref :=
  let leaky_relu := LeakyReLU_call (ResidualFeatureDistillationBlock.leaky_relu self) in
  distilled_conv_1 ← Conv2d_call (ResidualFeatureDistillationBlock.conv_1_distilled self) x;
  distilled_conv_1 ← leaky_relu distilled_conv_1;
  remaining_conv_1 ← Conv2d_call (ResidualFeatureDistillationBlock.conv_1_remaining self) x;
  remaining_conv_1 ← torch_add_call remaining_conv_1 x;
  remaining_conv_1 ← leaky_relu remaining_conv_1;

  distilled_conv_2 ←
    Conv2d_call (ResidualFeatureDistillationBlock.conv_2_distilled self) remaining_conv_1;
  distilled_conv_2 ← leaky_relu distilled_conv_2;
  remaining_conv_2 ←
    Conv2d_call (ResidualFeatureDistillationBlock.conv_2_remaining self) remaining_conv_1;
  remaining_conv_2 ← torch_add_call remaining_conv_2 remaining_conv_1;
  remaining_conv_2 ← leaky_relu remaining_conv_2;

  distilled_conv_3 ←
    Conv2d_call (ResidualFeatureDistillationBlock.conv_3_distilled self) remaining_conv_2;
  distilled_conv_3 ← leaky_relu distilled_conv_3;
  remaining_conv_3 ←
    Conv2d_call (ResidualFeatureDistillationBlock.conv_3_remaining self) remaining_conv_2;
  remaining_conv_3 ← torch_add_call remaining_conv_3 remaining_conv_2;
  remaining_conv_3 ← leaky_relu remaining_conv_3;

  remaining_conv_4 ←
    Conv2d_call (ResidualFeatureDistillationBlock.conv_4 self) remaining_conv_3;
  remaining_conv_4 ← leaky_relu remaining_conv_4;

  out ← torch_cat_call [distilled_conv_1; distilled_conv_2; distilled_conv_3; remaining_conv_4];
  out ← Conv2d_call (ResidualFeatureDistillationBlock.conv_5 self) out;

  esa_call out.

(** [yields m env h p]: started in heap [h], the call [m] raises when the
    value-level computation [p] raises, and otherwise returns a buffer
    holding the tensor [p] returns; that buffer is none of the buffers of
    [env], and every buffer of [env] is in the final heap with its contents
    unchanged. *)
Definition yields (m : St ref) (env h : heap) (p : result RuntimeError (Tensor F)) : Prop :=
  match p with
  | Ok t => ∃ r h', m h = Ok (r, h') ∧ env !! r = None ∧ <[r := t]> env ⊆ h'
  | Raise e => m h = Raise e
  end.

End Heap.
End Heap.

(** ** Vocabulary of the statements *)
Section Vocabulary.
Context {F : Type} `{Scalar F}.

(** A convolution with stride 1 and padding [(kernel_size - 1) / 2] for an
    odd kernel size. *)
Definition same_size (m : Conv2d F) : Prop :=
  stride m = 1 ∧ kernel_size m = 2 * padding m + 1.

(** A convolution whose weights and biases are all zero. *)
Definition zero_conv (m : Conv2d F) : Prop :=
  (∀ oc ic ky kx, oc < out_channels m → ic < in_channels m →
                  ky < kernel_size m → kx < kernel_size m →
                  weight m oc ic ky kx = fzero)
  ∧ (∀ oc, oc < out_channels m → bias m oc = fzero).

Definition RDB_zero (self : ResidualDenseBlock.t F) : Prop :=
  zero_conv (ResidualDenseBlock.conv_1 self) ∧ zero_conv (ResidualDenseBlock.conv_2 self)
  ∧ zero_conv (ResidualDenseBlock.conv_3 self) ∧ zero_conv (ResidualDenseBlock.conv_4 self)
  ∧ zero_conv (ResidualDenseBlock.conv_5 self).


(** N, H or W differ. *)
Definition NHW_differ (a b : Shape) : Prop :=
  dimN a ≠ dimN b ∨ dimH a ≠ dimH b ∨ dimW a ≠ dimW b.

(** Two sizes that broadcasting cannot reconcile. *)
Definition incompatible_dim (a b : nat) : Prop := a ≠ b ∧ a ≠ 1 ∧ b ≠ 1.

Definition incompatible (a b : Shape) : Prop :=
  incompatible_dim (dimN a) (dimN b) ∨ incompatible_dim (dimC a) (dimC b)
  ∨ incompatible_dim (dimH a) (dimH b) ∨ incompatible_dim (dimW a) (dimW b).

(** An operand of a sum is used whole or broadcast from size 1, never cut. *)
Definition not_truncated (operand sum : Shape) : Prop :=
  (dimN operand = dimN sum ∨ dimN operand = 1)
  ∧ (dimC operand = dimC sum ∨ dimC operand = 1)
  ∧ (dimH operand = dimH sum ∨ dimH operand = 1)
  ∧ (dimW operand = dimW sum ∨ dimW operand = 1).

(** The gate is code outside [blocks.py].  On buffers it is taken to compute
    [esa] on the contents of its argument, to return the result in a buffer
    that is none of the tracked ones, and to leave the tracked buffers alone;
    it may overwrite its argument. *)
Definition gate_ok (esa : Tensor F → result RuntimeError (Tensor F))
    (esa_call : nat → Heap.St nat) : Prop :=
  ∀ (env h : gmap nat (Tensor F)) (r : nat) (t : Tensor F),
    env ⊆ h → env !! r = None → h !! r = Some t →
    Heap.yields (esa_call r) env h (esa t).

(** [unchanged m h x p]: the call [m], started in heap [h], raises when the
    value-level computation [p] raises; otherwise it returns a buffer holding
    the tensor [p] returns, the buffer [x] holds what it held, and so does
    every other buffer of [h]. *)
Definition unchanged (m : Heap.St nat) (h : gmap nat (Tensor F)) (x : nat)
    (p : result RuntimeError (Tensor F)) : Prop :=
  match p with
  | Ok t => ∃ r h', m h = Ok (r, h') ∧ h' !! r = Some t
                    ∧ h' !! x = h !! x ∧ h ⊆ h'
  | Raise e => m h = Raise e
  end.

(** The [n]-th sample of a batch, as a batch of one: [x[n:n+1]]. *)
Definition batch_select (n : nat) (x : Tensor F) : Tensor F :=
  mkTensor (mkShape 1 (dimC (shape x)) (dimH (shape x)) (dimW (shape x)))
           (λ _ c h w, tval x n c h w).



(** Two sizes that broadcasting reconciles, and two such shapes. *)
Definition compatible_dim (a b : nat) : Prop := a = b ∨ a = 1 ∨ b = 1.

(** The size of the sum along a dimension in which the operands have sizes
    [a] and [b]: the one that is not the broadcast 1. *)
Definition broadcast_size (a b : nat) : nat := if bool_decide (a = 1) then b else a.

Definition broadcastable (a b : Shape) : Prop :=
  compatible_dim (dimN a) (dimN b) ∧ compatible_dim (dimC a) (dimC b)
  ∧ compatible_dim (dimH a) (dimH b) ∧ compatible_dim (dimW a) (dimW b).

(** [b] is the [n]-th sample of [a], a batch of [N]. *)
Definition sample_of (N n : nat) (a b : Tensor F) : Prop :=
  dimN (shape a) = N ∧ tensor_eq b (batch_select n a).

(** Two outcomes related by [R]: both raise, or both return and the values
    are related. *)
Definition result_rel (R : Tensor F → Tensor F → Prop)
    (r1 r2 : result RuntimeError (Tensor F)) : Prop :=
  match r1, r2 with
  | Ok a, Ok b => R a b
  | Raise _, Raise _ => True
  | _, _ => False
  end.

(** A tensor all of whose elements are zero. *)
Definition zero_tensor (t : Tensor F) : Prop :=
  ∀ n c h w, in_shape (shape t) n c h w → tval t n c h w = fzero.

(** A convolution without bias: [bias] is zero. *)
Definition zero_bias (m : Conv2d F) : Prop :=
  ∀ oc, oc < out_channels m → bias m oc = fzero.

Definition RDB_zero_bias (self : ResidualDenseBlock.t F) : Prop :=
  zero_bias (ResidualDenseBlock.conv_1 self) ∧ zero_bias (ResidualDenseBlock.conv_2 self)
  ∧ zero_bias (ResidualDenseBlock.conv_3 self) ∧ zero_bias (ResidualDenseBlock.conv_4 self)
  ∧ zero_bias (ResidualDenseBlock.conv_5 self).

(** Two dense blocks that differ at most in the [inplace] flag of the
    activation. *)
Definition RDB_same_but_inplace (self self' : ResidualDenseBlock.t F) : Prop :=
  ResidualDenseBlock.conv_1 self = ResidualDenseBlock.conv_1 self'
  ∧ ResidualDenseBlock.conv_2 self = ResidualDenseBlock.conv_2 self'
  ∧ ResidualDenseBlock.conv_3 self = ResidualDenseBlock.conv_3 self'
  ∧ ResidualDenseBlock.conv_4 self = ResidualDenseBlock.conv_4 self'
  ∧ ResidualDenseBlock.conv_5 self = ResidualDenseBlock.conv_5 self'
  ∧ negative_slope (ResidualDenseBlock.leaky_relu self)
    = negative_slope (ResidualDenseBlock.leaky_relu self').

(** Two runs on buffers that end alike: both raise, or both return a buffer
    and the two buffers hold the same tensor. *)
Definition same_outcome (r1 r2 : result RuntimeError (nat * gmap nat (Tensor F))) : Prop :=
  match r1, r2 with
  | Ok (o1, h1), Ok (o2, h2) => is_Some (h1 !! o1) ∧ h1 !! o1 = h2 !! o2
  | Raise _, Raise _ => True
  | _, _ => False
  end.

End Vocabulary.

(** Some data to run the model on. *)
Module Sample.

(** Weight 1 at the centre of every 3x3 kernel from channel [ic] to channel
    [oc = ic], bias 0. *)
Definition centre : ConvParams Qc :=
  mkConvParams (λ oc ic ky kx, if bool_decide (oc = ic ∧ ky = 1 ∧ kx = 1)
                               then Q2Qc 1 else Q2Qc 0)
               (λ _, Q2Qc 0).

Definition zero : ConvParams Qc := mkConvParams (λ _ _ _ _, Q2Qc 0) (λ _, Q2Qc 0).

Definition rdb_centre : ResidualDenseBlock.state_dict Qc :=
  ResidualDenseBlock.mk_state centre centre centre centre centre.

Definition rdb_zero : ResidualDenseBlock.state_dict Qc :=
  ResidualDenseBlock.mk_state zero zero zero zero zero.

Definition rrdb_centre : ResidualResidualDenseBlock.state_dict Qc :=
  ResidualResidualDenseBlock.mk_state rdb_centre rdb_centre rdb_centre.


Definition rfdb_centre : ResidualFeatureDistillationBlock.state_dict Qc :=
  ResidualFeatureDistillationBlock.mk_state
    centre centre centre centre centre centre centre centre.

(** A gate that returns its input. *)
Definition gate : nat → Tensor Qc → result RuntimeError (Tensor Qc) := λ _ t, Ok t.

(** A 1x2x2x2 image with positive and negative entries. *)
Definition image : Tensor Qc :=
  mkTensor (mkShape 1 2 2 2)
           (λ n c h w, Q2Qc (Z.of_nat (c + 2 * h) - Z.of_nat (3 * w) # 1)).

Definition ones (s : Shape) : Tensor Qc := full s (Q2Qc 1).


Definition rdb : ResidualDenseBlock.t Qc := ResidualDenseBlock.init 2 1 rdb_centre.

Definition rrdb : ResidualResidualDenseBlock.t Qc :=
  ResidualResidualDenseBlock.init 2 1 rrdb_centre.

Definition rfdb : ResidualFeatureDistillationBlock.t Qc :=
  ResidualFeatureDistillationBlock.init gate 2 rfdb_centre.

(** Blocks with every weight and bias zero. *)
Definition rdb_zero_block : ResidualDenseBlock.t Qc :=
  ResidualDenseBlock.init 1 1 rdb_zero.


(** The caller's heap: the image in buffer 0. *)
Definition heap : gmap nat (Tensor Qc) := {[ 0 := image ]}.






End Sample.

(** * Properties *)

(** ** Equality of tensors *)
Section TensorFacts.
Context {F : Type} `{Scalar F}.

Lemma tensor_eq_refl (a : Tensor F) : tensor_eq a a.
Proof. by split. Qed.

Lemma tensor_eq_sym (a b : Tensor F) : tensor_eq a b → tensor_eq b a.
Proof.
  intros [Hs Hv]. split; [done|].
  intros n c h w Hin. symmetry. apply Hv. by rewrite Hs.
Qed.

Lemma tensor_eq_trans (a b c : Tensor F) : tensor_eq a b → tensor_eq b c → tensor_eq a c.
Proof.
  intros [Hs1 Hv1] [Hs2 Hv2]. split; [congruence|].
  intros n ch h w Hin. rewrite Hv1 by done. apply Hv2. by rewrite <- Hs1.
Qed.

#[export] Instance tensor_eq_equivalence : Equivalence (@tensor_eq F).
Proof.
  split; [exact tensor_eq_refl | exact tensor_eq_sym | exact tensor_eq_trans].
Qed.

Lemma result_eq_refl {E} (r : result E (Tensor F)) : result_eq r r.
Proof. destruct r; simpl; [apply tensor_eq_refl | done]. Qed.

Lemma result_eq_sym {E1 E2} (r1 : result E1 (Tensor F)) (r2 : result E2 (Tensor F)) :
  result_eq r1 r2 → result_eq r2 r1.
Proof. destruct r1, r2; simpl; auto using tensor_eq_sym. Qed.

Lemma result_eq_trans {E1 E2 E3} (r1 : result E1 (Tensor F))
    (r2 : result E2 (Tensor F)) (r3 : result E3 (Tensor F)) :
  result_eq r1 r2 → result_eq r2 r3 → result_eq r1 r3.
Proof. destruct r1, r2, r3; simpl; try done. apply tensor_eq_trans. Qed.

(** Running two computations in step. *)
Lemma result_eq_bind {E1 E2} (r1 : result E1 (Tensor F)) (r2 : result E2 (Tensor F))
    (f1 : Tensor F → result E1 (Tensor F)) (f2 : Tensor F → result E2 (Tensor F)) :
  result_eq r1 r2 →
  (∀ a b, r1 = Ok a → r2 = Ok b → tensor_eq a b → result_eq (f1 a) (f2 b)) →
  result_eq (r1 ≫= f1) (r2 ≫= f2).
Proof. destruct r1, r2; simpl; try done. intros Hab Hf. by apply Hf. Qed.

Lemma bind_Ok {E A B} (a : A) (f : A → result E B) : Ok a ≫= f = f a.
Proof. done. Qed.

Lemma bind_Raise {E A B} (e : E) (f : A → result E B) : Raise e ≫= f = Raise e.
Proof. done. Qed.

Lemma fmap_Ok {E A B} (a : A) (f : A → B) : f <$> (Ok a : result E A) = Ok (f a).
Proof. done. Qed.

Lemma fmap_Raise {E A B} (e : E) (f : A → B) : f <$> (Raise e : result E A) = Raise e.
Proof. done. Qed.

Lemma fmap_as_bind {E A B} (f : A → B) (r : result E A) :
  f <$> r = r ≫= λ a, Ok (f a).
Proof. by destruct r. Qed.

Lemma bind_Ok_inv {E A B} (r : result E A) (f : A → result E B) (b : B) :
  r ≫= f = Ok b → ∃ a, r = Ok a ∧ f a = Ok b.
Proof. destruct r; simpl; [eauto | done]. Qed.

Lemma fmap_Ok_inv {E A B} (r : result E A) (f : A → B) (b : B) :
  f <$> r = Ok b → ∃ a, r = Ok a ∧ b = f a.
Proof. destruct r; simpl; [|done]. intros [= <-]. eauto. Qed.

(** ** Sums *)


Lemma fsum_ext n (f g : nat → F) :
  (∀ i, i < n → f i = g i) → fsum n f = fsum n g.
Proof.
  induction n as [|n IH]; simpl; [done|].
  intros Hfg. rewrite IH, Hfg by (intros; auto with lia). done.
Qed.

Lemma fsum_zero `{!ScalarLaws F} n (f : nat → F) :
  (∀ i, i < n → f i = fzero) → fsum n f = fzero.
Proof.
  induction n as [|n IH]; simpl; [done|].
  intros Hf. rewrite IH, Hf by (intros; auto with lia). apply fadd_0_l.
Qed.

End TensorFacts.

(** ** The tensor library *)
Section LibraryFacts.
Context {F : Type} `{Scalar F}.

(** *** Convolution *)

Lemma Conv2d_forward_Ok (m : Conv2d F) (x y : Tensor F) :
  Conv2d_forward m x = Ok y →
  y = conv2d_out m x ∧ dimC (shape x) = in_channels m ∧ stride m ≠ 0 ∧
  kernel_size m ≤ dimH (shape x) + 2 * padding m ∧
  kernel_size m ≤ dimW (shape x) + 2 * padding m.
Proof.
  unfold Conv2d_forward.
  case_bool_decide as Hs; [done|]. case_bool_decide as Ho; [done|].
  case_bool_decide as HC; cbn [negb]; [|done].
  destruct (dimH (shape x) + 2 * padding m <? kernel_size m) eqn:E1; [done|].
  destruct (dimW (shape x) + 2 * padding m <? kernel_size m) eqn:E2; [done|].
  cbn [orb]. apply Nat.ltb_ge in E1. apply Nat.ltb_ge in E2.
  destruct (_ && _); [done|]. intros [= <-]. done.
Qed.

Lemma Conv2d_forward_Ok_out (m : Conv2d F) (x y : Tensor F) :
  Conv2d_forward m x = Ok y → 1 ≤ out_channels m.
Proof.
  unfold Conv2d_forward.
  case_bool_decide as Hs; [done|]. case_bool_decide as Ho; [done|]. lia.
Qed.

Lemma Conv2d_forward_success (m : Conv2d F) (x : Tensor F) :
  1 ≤ out_channels m → 1 ≤ in_channels m →
  dimC (shape x) = in_channels m → stride m ≠ 0 →
  kernel_size m ≤ dimH (shape x) + 2 * padding m →
  kernel_size m ≤ dimW (shape x) + 2 * padding m →
  Conv2d_forward m x = Ok (conv2d_out m x).
Proof.
  intros Ho Hi HC Hs HH HW. unfold Conv2d_forward.
  rewrite (bool_decide_eq_false_2 (stride m = 0)) by done.
  rewrite (bool_decide_eq_false_2 (out_channels m = 0)) by lia.
  rewrite (bool_decide_eq_true_2 (dimC (shape x) = in_channels m)) by done.
  apply Nat.ltb_ge in HH. apply Nat.ltb_ge in HW. rewrite HH, HW. simpl.
  rewrite (bool_decide_eq_false_2 (dimC (shape x) = 0)) by lia.
  rewrite orb_false_r.
  case_bool_decide as HN; [|done]. simpl.
  rewrite bool_decide_eq_true_2; [done|]. unfold numel. simpl. rewrite HN. done.
Qed.

Lemma conv_out_size_same (size p : nat) :
  1 ≤ size → conv_out_size size (2 * p + 1) 1 p = size.
Proof. intros Hs. unfold conv_out_size. rewrite Nat.div_1_r. lia. Qed.

Lemma same_size_shape (m : Conv2d F) (x y : Tensor F) :
  same_size m → Conv2d_forward m x = Ok y →
  shape y = mkShape (dimN (shape x)) (out_channels m) (dimH (shape x)) (dimW (shape x))
  ∧ dimC (shape x) = in_channels m ∧ 1 ≤ dimH (shape x) ∧ 1 ≤ dimW (shape x).
Proof.
  intros [Hs Hk] (-> & HC & _ & HH & HW)%Conv2d_forward_Ok.
  rewrite Hk in HH, HW. simpl. rewrite Hs, Hk.
  rewrite !conv_out_size_same by lia. repeat split; (done || lia).
Qed.

Lemma same_size_success (m : Conv2d F) (x : Tensor F) :
  same_size m → 1 ≤ out_channels m → 1 ≤ in_channels m →
  dimC (shape x) = in_channels m →
  1 ≤ dimH (shape x) → 1 ≤ dimW (shape x) →
  Conv2d_forward m x = Ok (conv2d_out m x).
Proof.
  intros [Hs Hk] Ho Hi HC HH HW. apply Conv2d_forward_success; [done|done|done|lia..].
Qed.

Lemma padded_proper (a b : Tensor F) (p n c i j : nat) :
  tensor_eq a b → n < dimN (shape a) → c < dimC (shape a) →
  padded a p n c i j = padded b p n c i j.
Proof.
  intros [Hs Hv] Hn Hc. unfold padded. rewrite <- Hs.
  destruct (_ && _) eqn:E; [|done].
  repeat (apply andb_prop in E as [E ?]).
  apply Hv. unfold in_shape.
  repeat match goal with
         | H : (_ <=? _) = true |- _ => apply Nat.leb_le in H
         | H : (_ <? _) = true |- _ => apply Nat.ltb_lt in H
         end.
  lia.
Qed.

Lemma Conv2d_forward_proper (m : Conv2d F) (a b : Tensor F) :
  tensor_eq a b →
  result_eq (E1:=RuntimeError) (E2:=RuntimeError) (Conv2d_forward m a) (Conv2d_forward m b).
Proof.
  intros Hab. pose proof Hab as [Hs Hv]. unfold Conv2d_forward.
  replace (shape (conv2d_out m b)) with (shape (conv2d_out m a))
    by (simpl; by rewrite Hs).
  rewrite <- Hs.
  case_bool_decide; [done|]. case_bool_decide; [done|].
  case_bool_decide as HC; simpl; [|done].
  destruct ((_ <? _) || (_ <? _)); [done|]. simpl.
  destruct (_ && _); [done|]. simpl.
  split; [simpl; by rewrite Hs|].
  intros n oc y x (Hn & _). simpl in Hn. simpl. f_equal.
  apply fsum_ext. intros ic Hic. apply fsum_ext. intros ky _. apply fsum_ext.
  intros kx _. f_equal. apply padded_proper; [done|done|lia].
Qed.

Lemma conv2d_out_zero `{!ScalarLaws F} (m : Conv2d F) (x : Tensor F) n oc y xx :
  zero_conv m → oc < out_channels m → tval (conv2d_out m x) n oc y xx = fzero.
Proof.
  intros [Hw Hb] Hoc. simpl. rewrite Hb by done.
  rewrite fsum_zero; [apply fadd_0_l|].
  intros ic Hic. apply fsum_zero. intros ky Hky. apply fsum_zero. intros kx Hkx.
  rewrite Hw by done. apply fmul_0_l.
Qed.

(** *** Activation and scaling *)

Lemma LeakyReLU_forward_proper (m : LeakyReLU F) (a b : Tensor F) :
  tensor_eq a b → tensor_eq (LeakyReLU_forward m a) (LeakyReLU_forward m b).
Proof.
  intros [Hs Hv]. split; [done|]. intros n c h w Hin. simpl. f_equal. by apply Hv.
Qed.

Lemma torch_mul_proper (a b : Tensor F) (k : F) :
  tensor_eq a b → tensor_eq (torch_mul a k) (torch_mul b k).
Proof.
  intros [Hs Hv]. split; [done|]. intros n c h w Hin. simpl. f_equal. by apply Hv.
Qed.

(** *** Addition *)

Lemma broadcast_dim_same (d : nat) : broadcast_dim d d = Some d.
Proof. unfold broadcast_dim. by rewrite bool_decide_eq_true_2. Qed.

Lemma broadcast_shape_same (s : Shape) : broadcast_shape s s = Some s.
Proof. unfold broadcast_shape. rewrite !broadcast_dim_same. by destruct s. Qed.

Lemma bidx_in_range (d i : nat) : i < d → bidx d i = i.
Proof. unfold bidx. case_bool_decide; lia. Qed.

Lemma expand_in_shape (a : Tensor F) (n c h w : nat) :
  in_shape (shape a) n c h w → expand a n c h w = tval a n c h w.
Proof.
  intros (Hn & Hc & Hh & Hw). unfold expand. by rewrite !bidx_in_range.
Qed.

(** On operands of one shape, [torch.add] is the elementwise sum. *)
Lemma torch_add_same_shape (a b : Tensor F) :
  shape a = shape b →
  ∃ r, torch_add a b = Ok r ∧ shape r = shape a ∧
       ∀ n c h w, in_shape (shape a) n c h w →
                  tval r n c h w = fadd (tval a n c h w) (tval b n c h w).
Proof.
  intros Hs. unfold torch_add. rewrite <- Hs, broadcast_shape_same.
  eexists. split; [done|]. split; [done|].
  intros n c h w Hin. simpl. rewrite !expand_in_shape; [done| |done]. by rewrite <- Hs.
Qed.

End LibraryFacts.

(** ** Concatenation *)
Section CatFacts.
Context {F : Type} `{Scalar F}.

Local Abbreviation cat_step :=
  (λ (acc : result RuntimeError (Tensor F)) (u : Tensor F), a ← acc; cat2 a u).

Lemma same_NHW_spec (s1 s2 : Shape) :
  same_NHW s1 s2 = true ↔ dimN s1 = dimN s2 ∧ dimH s1 = dimH s2 ∧ dimW s1 = dimW s2.
Proof.
  unfold same_NHW. rewrite !andb_true_iff, !bool_decide_eq_true. tauto.
Qed.

Lemma cat2_Ok (a b r : Tensor F) :
  cat2 a b = Ok r →
  same_NHW (shape a) (shape b) = true ∧
  shape r = mkShape (dimN (shape a)) (dimC (shape a) + dimC (shape b))
                    (dimH (shape a)) (dimW (shape a)) ∧
  ∀ n c h w, tval r n c h w = if c <? dimC (shape a) then tval a n c h w
                               else tval b n (c - dimC (shape a)) h w.
Proof.
  unfold cat2. destruct (same_NHW _ _); [|done]. intros [= <-]. done.
Qed.

Lemma cat2_success (a b : Tensor F) :
  same_NHW (shape a) (shape b) = true → ∃ r, cat2 a b = Ok r.
Proof. intros Hs. unfold cat2. rewrite Hs. eauto. Qed.

Lemma cat2_proper (a a' b b' : Tensor F) :
  tensor_eq a a' → tensor_eq b b' →
  result_eq (E1:=RuntimeError) (E2:=RuntimeError) (cat2 a b) (cat2 a' b').
Proof.
  intros [Hsa Hva] [Hsb Hvb]. unfold cat2. rewrite <- Hsa, <- Hsb.
  destruct (same_NHW _ _) eqn:E; [|done]. apply same_NHW_spec in E as (EN & EH & EW).
  split; [done|]. intros n c h w (Hn & Hc & Hh & Hw). simpl in *.
  destruct (c <? _) eqn:Ec.
  - apply Nat.ltb_lt in Ec. by apply Hva.
  - apply Nat.ltb_ge in Ec. apply Hvb. unfold in_shape. lia.
Qed.

Lemma foldl_cat_Raise (e : RuntimeError) (rest : list (Tensor F)) :
  foldl cat_step (Raise e) rest = Raise e.
Proof. induction rest as [|u rest IH]; [done|]. simpl. apply IH. Qed.

Lemma foldl_cat_proper (r r' : result RuntimeError (Tensor F)) (rest rest' : list (Tensor F)) :
  result_eq r r' → Forall2 tensor_eq rest rest' →
  result_eq (foldl cat_step r rest) (foldl cat_step r' rest').
Proof.
  intros Hr Hrest. revert r r' Hr.
  induction Hrest as [|u u' rest rest' Hu _ IH]; intros r r' Hr; [done|].
  simpl. apply IH. apply result_eq_bind; [done|].
  intros a b _ _ Hab. by apply cat2_proper.
Qed.

Lemma torch_cat_proper (ts ts' : list (Tensor F)) :
  Forall2 tensor_eq ts ts' →
  result_eq (E1:=RuntimeError) (E2:=RuntimeError) (torch_cat ts) (torch_cat ts').
Proof.
  intros [|t t' rest rest' Ht Hrest]; [done|].
  simpl. by apply foldl_cat_proper.
Qed.

(** The result of a successful concatenation: N, H and W of the first
    tensor, and the channel counts added up. *)
Lemma foldl_cat_shape (a r : Tensor F) (rest : list (Tensor F)) :
  foldl cat_step (Ok a) rest = Ok r →
  shape r = mkShape (dimN (shape a)) (dimC (shape a) + sum_list (dimC ∘ shape <$> rest))
                    (dimH (shape a)) (dimW (shape a)).
Proof.
  revert a. induction rest as [|u rest IH]; intros a; simpl.
  - intros [= <-]. destruct (shape a). simpl. f_equal. lia.
  - destruct (cat2 a u) as [au|e] eqn:E; [|by rewrite foldl_cat_Raise].
    intros Hr. apply IH in Hr. apply cat2_Ok in E as (_ & Hs & _).
    rewrite Hr, Hs. simpl. f_equal. symmetry. apply Nat.add_assoc.
Qed.

Lemma torch_cat_shape (t r : Tensor F) (rest : list (Tensor F)) :
  torch_cat (t :: rest) = Ok r →
  shape r = mkShape (dimN (shape t)) (dimC (shape t) + sum_list (dimC ∘ shape <$> rest))
                    (dimH (shape t)) (dimW (shape t)).
Proof. apply foldl_cat_shape. Qed.

Lemma foldl_cat_success (a : Tensor F) (rest : list (Tensor F)) :
  Forall (λ u, same_NHW (shape a) (shape u) = true) rest →
  ∃ r, foldl cat_step (Ok a) rest = Ok r.
Proof.
  revert a. induction rest as [|u rest IH]; intros a Hall; simpl; [eauto|].
  apply Forall_cons in Hall as [Hu Hrest].
  destruct (cat2_success a u Hu) as [au Hau]. rewrite Hau.
  apply IH. apply cat2_Ok in Hau as (_ & Hs & _).
  eapply Forall_impl; [exact Hrest|]. intros v Hv. simpl in Hv.
  apply same_NHW_spec in Hv. apply same_NHW_spec. rewrite Hs. simpl. done.
Qed.

Lemma torch_cat_success (t : Tensor F) (rest : list (Tensor F)) :
  Forall (λ u, same_NHW (shape t) (shape u) = true) rest →
  ∃ r, torch_cat (t :: rest) = Ok r.
Proof. apply foldl_cat_success. Qed.

(** Concatenation is associative, failures included. *)
Lemma cat2_assoc (t r w : Tensor F) :
  result_eq (E1:=RuntimeError) (E2:=RuntimeError)
    (cat2 t r ≫= λ a, cat2 a w) (cat2 r w ≫= cat2 t).
Proof.
  unfold cat2.
  destruct (same_NHW (shape t) (shape r)) eqn:E1;
    destruct (same_NHW (shape r) (shape w)) eqn:E2;
    rewrite ?bind_Ok, ?bind_Raise; simpl; [| | |done].
  - apply same_NHW_spec in E1 as (? & ? & ?). apply same_NHW_spec in E2 as (? & ? & ?).
    destruct (same_NHW (mkShape _ _ _ _) (shape w)) eqn:E3;
      [|exfalso; apply not_true_iff_false in E3; apply E3, same_NHW_spec; simpl; lia].
    destruct (same_NHW (shape t) (mkShape _ _ _ _)) eqn:E4;
      [|exfalso; apply not_true_iff_false in E4; apply E4, same_NHW_spec; simpl; lia].
    split; [simpl; f_equal; lia|].
    intros n c h x _. simpl.
    destruct (c <? dimC (shape t) + dimC (shape r)) eqn:Ea;
      destruct (c <? dimC (shape t)) eqn:Eb;
      destruct (c - dimC (shape t) <? dimC (shape r)) eqn:Ec;
      try done;
      repeat match goal with
             | H : (_ <? _) = true |- _ => apply Nat.ltb_lt in H
             | H : (_ <? _) = false |- _ => apply Nat.ltb_ge in H
             end; try (exfalso; lia).
    f_equal. lia.
  - destruct (same_NHW (mkShape _ _ _ _) (shape w)) eqn:E3; [|exact I].
    apply same_NHW_spec in E1 as (? & ? & ?). apply same_NHW_spec in E3. simpl in E3.
    assert (same_NHW (shape r) (shape w) = true) by (apply same_NHW_spec; lia).
    congruence.
  - destruct (same_NHW (shape t) (mkShape _ _ _ _)) eqn:E3; [|exact I].
    apply same_NHW_spec in E2 as (? & ? & ?). apply same_NHW_spec in E3. simpl in E3.
    assert (same_NHW (shape t) (shape r) = true) by (apply same_NHW_spec; lia).
    congruence.
Qed.

Lemma foldl_cat_assoc (t u : Tensor F) (rest : list (Tensor F)) :
  result_eq (foldl cat_step (cat2 t u) rest) (foldl cat_step (Ok u) rest ≫= cat2 t).
Proof.
  induction rest as [|w rest IH] using rev_ind; [apply result_eq_refl|].
  rewrite !foldl_snoc.
  eapply result_eq_trans.
  { apply (result_eq_bind _ _ (λ a, cat2 a w) (λ a, cat2 a w) IH).
    intros a b _ _ Hab. apply cat2_proper; [done|apply tensor_eq_refl]. }
  destruct (foldl cat_step (Ok u) rest) as [r|e]; [|done].
  apply cat2_assoc.
Qed.

(** The left-to-right concatenation of the library and the concatenation of
    the specification agree. *)
Lemma torch_cat_concat_channels (ts : list (Tensor F)) :
  result_eq (torch_cat ts) (Spec.concat_channels ts).
Proof.
  induction ts as [|t [|u rest] IH]; [done|apply tensor_eq_refl|].
  change (torch_cat (t :: u :: rest)) with (foldl cat_step (cat2 t u) rest).
  eapply result_eq_trans; [apply foldl_cat_assoc|].
  change (foldl cat_step (Ok u) rest) with (torch_cat (u :: rest)).
  change (Spec.concat_channels (t :: u :: rest)) with
    (Spec.concat_channels (u :: rest) ≫= λ r,
       if bool_decide (dimN (shape t) = dimN (shape r) ∧ dimH (shape t) = dimH (shape r)
                       ∧ dimW (shape t) = dimW (shape r))
       then Ok (mkTensor
                  (mkShape (dimN (shape t)) (dimC (shape t) + dimC (shape r))
                           (dimH (shape t)) (dimW (shape t)))
                  (λ n c h w, if c <? dimC (shape t) then tval t n c h w
                              else tval r n (c - dimC (shape t)) h w))
       else Raise Spec.ShapeError).
  apply result_eq_bind; [exact IH|].
  intros a b _ _ Hab.
  eapply result_eq_trans; [apply (cat2_proper t t a b); [apply tensor_eq_refl|done]|].
  unfold cat2. destruct (same_NHW _ _) eqn:E.
  - apply same_NHW_spec in E. rewrite bool_decide_eq_true_2 by done. apply tensor_eq_refl.
  - rewrite bool_decide_eq_false_2; [done|]. intros E'%same_NHW_spec. congruence.
Qed.

Lemma torch_cat_implements (ts ts' : list (Tensor F)) :
  Forall2 tensor_eq ts ts' → result_eq (torch_cat ts) (Spec.concat_channels ts').
Proof.
  intros Hts. eapply result_eq_trans; [by apply torch_cat_proper|].
  apply torch_cat_concat_channels.
Qed.

End CatFacts.

(** ** Library operations against the operations of the specification *)
Section SpecFacts.
Context {F : Type} `{Scalar F}.

Lemma bind_fmap {E A B C} (f : A → B) (r : result E A) (k : B → result E C) :
  (f <$> r) ≫= k = r ≫= λ a, k (f a).
Proof. by destruct r. Qed.

Lemma operator_implements (f : Tensor F → result RuntimeError (Tensor F))
    (a b : Tensor F) :
  result_eq (f a) (f b) → result_eq (f a) (Spec.operator f b).
Proof. unfold Spec.operator. by destruct (f a), (f b). Qed.

Lemma Conv2D_implements (m : Conv2d F) (a b : Tensor F) :
  tensor_eq a b → result_eq (Conv2d_forward m a) (Spec.Conv2D m b).
Proof. intros Hab. by apply operator_implements, Conv2d_forward_proper. Qed.

Lemma cat_conv_implements (m : Conv2d F) (ts ts' : list (Tensor F)) :
  Forall2 tensor_eq ts ts' →
  result_eq (torch_cat ts ≫= Conv2d_forward m)
            (Spec.concat_channels ts' ≫= Spec.Conv2D m).
Proof.
  intros Hts. apply result_eq_bind; [by apply torch_cat_implements|].
  intros a b _ _ Hab. by apply Conv2D_implements.
Qed.

Lemma leaky_relu_implements (slope : F) (ip : bool) (a b : Tensor F) :
  tensor_eq a b →
  tensor_eq (LeakyReLU_forward (nn_LeakyReLU slope ip) a) (Spec.leaky_relu b slope).
Proof. apply (LeakyReLU_forward_proper (nn_LeakyReLU slope ip)). Qed.

(** [torch.add] against [add], on operands of one shape. *)
Lemma add_implements (a a' b b' : Tensor F) :
  tensor_eq a a' → tensor_eq b b' → shape a = shape b →
  result_eq (torch_add a b) (Spec.add a' b').
Proof.
  intros [Hsa Hva] [Hsb Hvb] Hs.
  destruct (torch_add_same_shape a b Hs) as (r & -> & Hr & Hv).
  unfold Spec.add. rewrite bool_decide_eq_true_2 by congruence.
  split; [simpl; congruence|].
  intros n c h w Hin. rewrite Hr in Hin. simpl.
  rewrite Hv, Hva, Hvb by (done || by rewrite <- Hs). done.
Qed.

(** The scaled residual connection [torch.add(torch.mul(out, k), x)] against
    [x + k * out]. *)
Lemma residual_implements `{!ScalarComm F} (out out' x : Tensor F) (k : F) :
  tensor_eq out out' → shape out = shape x →
  result_eq (torch_add (torch_mul out k) x) (Spec.add x (Spec.scale k out')).
Proof.
  intros [Hso Hvo] Hs.
  destruct (torch_add_same_shape (torch_mul out k) x Hs) as (r & -> & Hr & Hv).
  unfold Spec.add. rewrite bool_decide_eq_true_2 by (simpl; congruence).
  split; [simpl in *; congruence|].
  intros n c h w Hin. rewrite Hr in Hin. simpl in Hin. simpl.
  rewrite Hv by done. simpl. rewrite Hvo by done.
  rewrite fadd_comm. f_equal. apply fmul_comm.
Qed.

End SpecFacts.

Ltac solve_Forall2 :=
  repeat match goal with
         | |- Forall2 _ _ _ => constructor
         end;
  first [assumption | apply tensor_eq_refl].


(** ** ResidualDenseBlock *)
Section RDBFacts.
Context {F : Type} `{Scalar F}.
Import ResidualDenseBlock.

(** The five convolutions [__init__] builds keep the spatial size. *)
Lemma init_same_size (channels growth_channels : nat) (sd : state_dict F) :
  let self := init channels growth_channels sd in
  same_size (conv_1 self) ∧ same_size (conv_2 self) ∧ same_size (conv_3 self)
  ∧ same_size (conv_4 self) ∧ same_size (conv_5 self).
Proof. by repeat split. Qed.

(** What a successful fifth stage says about the shape of [out_5]. *)
Lemma out_5_shape (m1 m5 : Conv2d F) (x c1 out_5 : Tensor F) (rest : list (Tensor F)) :
  same_size m5 → out_channels m5 = in_channels m1 →
  Conv2d_forward m1 x = Ok c1 →
  torch_cat (x :: rest) ≫= Conv2d_forward m5 = Ok out_5 →
  shape out_5 = shape x.
Proof.
  intros H5 Hch (_ & HC & _)%Conv2d_forward_Ok (cat5 & Hcat & Hconv)%bind_Ok_inv.
  apply torch_cat_shape in Hcat.
  apply (same_size_shape _ _ _ H5) in Hconv as (-> & _).
  rewrite Hcat, Hch, <- HC. simpl. by destruct (shape x).
Qed.

Lemma forward_implements `{!ScalarComm F} (channels growth_channels : nat)
    (sd : state_dict F) (x : Tensor F) :
  let self := init channels growth_channels sd in
  result_eq (forward self x) (Spec.RDB_block self x).
Proof.
  intros self. unfold forward, Spec.RDB_block, Spec.RDB.
  pose proof (tensor_eq_refl x) as Hx.
  rewrite bind_fmap. apply result_eq_bind; [by apply Conv2D_implements|].
  intros c1 c1' E1 _ Hc1.
  apply (leaky_relu_implements (flit 0.2) true) in Hc1.
  rewrite bind_fmap. apply result_eq_bind; [apply cat_conv_implements; solve_Forall2|].
  intros c2 c2' _ _ Hc2.
  apply (leaky_relu_implements (flit 0.2) true) in Hc2.
  rewrite bind_fmap. apply result_eq_bind; [apply cat_conv_implements; solve_Forall2|].
  intros c3 c3' _ _ Hc3.
  apply (leaky_relu_implements (flit 0.2) true) in Hc3.
  rewrite bind_fmap. apply result_eq_bind; [apply cat_conv_implements; solve_Forall2|].
  intros c4 c4' _ _ Hc4.
  apply (leaky_relu_implements (flit 0.2) true) in Hc4.
  rewrite bind_fmap. apply result_eq_bind; [apply cat_conv_implements; solve_Forall2|].
  intros out_5 out5' E5 _ H5. unfold Identity_forward.
  apply residual_implements; [done|].
  eapply (out_5_shape (conv_1 self) (conv_5 self)); [by split|simpl; lia|exact E1|exact E5].
Qed.

End RDBFacts.

(** ** Shapes along [ResidualDenseBlock.forward] *)
Section RDBShapes.
Context {F : Type} `{Scalar F}.
Import ResidualDenseBlock.

Lemma same_NHW_of_shape (s : Shape) (u : Tensor F) (c : nat) :
  shape u = mkShape (dimN s) c (dimH s) (dimW s) → same_NHW s (shape u) = true.
Proof. intros ->. by apply same_NHW_spec. Qed.

(** One dense stage: concatenate, then convolve. *)
Lemma stage_returns (m : Conv2d F) (x : Tensor F) (rest : list (Tensor F)) :
  same_size m → 1 ≤ out_channels m → 1 ≤ dimC (shape x) →
  1 ≤ dimH (shape x) → 1 ≤ dimW (shape x) →
  Forall (λ u, same_NHW (shape x) (shape u) = true) rest →
  in_channels m = dimC (shape x) + sum_list (dimC ∘ shape <$> rest) →
  ∃ t, torch_cat (x :: rest) ≫= Conv2d_forward m = Ok (conv2d_out m t) ∧
       shape (conv2d_out m t)
       = mkShape (dimN (shape x)) (out_channels m) (dimH (shape x)) (dimW (shape x)).
Proof.
  intros Hm Ho Hx HH HW Hrest Hin.
  destruct (torch_cat_success x rest Hrest) as [t Ht].
  pose proof (torch_cat_shape _ _ _ Ht) as Hs.
  assert (Conv2d_forward m t = Ok (conv2d_out m t)) as Hc.
  { apply same_size_success; rewrite ?Hs; simpl; (done || lia). }
  exists t. rewrite Ht, bind_Ok. split; [done|].
  apply (same_size_shape m t _ Hm) in Hc as (-> & _). by rewrite Hs.
Qed.

(** With at least one channel and one growth channel, on an input with the
    configured channel count and a non-empty spatial extent, [forward]
    returns; the result has the shape of [x] and is the scaled fifth
    convolution added to [x]. *)
Lemma forward_returns (channels growth_channels : nat) (sd : state_dict F)
    (x : Tensor F) :
  let self := init channels growth_channels sd in
  1 ≤ channels → 1 ≤ growth_channels →
  dimC (shape x) = channels → 1 ≤ dimH (shape x) → 1 ≤ dimW (shape x) →
  ∃ t y, forward self x = Ok y ∧ shape y = shape x ∧
         ∀ n c h w, in_shape (shape x) n c h w →
           tval y n c h w
           = fadd (fmul (tval (conv2d_out (conv_5 self) t) n c h w) (flit 0.2))
                  (tval x n c h w).
Proof.
  intros self Hch Hg HC HH HW. unfold forward.
  set (L := LeakyReLU_forward (leaky_relu self)).
  assert (∀ (c : Tensor F) g, shape c = mkShape (dimN (shape x)) g (dimH (shape x))
                                                 (dimW (shape x)) →
            same_NHW (shape x) (shape (L c)) = true ∧ dimC (shape (L c)) = g) as HL.
  { intros c g Hc. split; [by eapply same_NHW_of_shape|]. simpl. by rewrite Hc. }
  assert (Conv2d_forward (conv_1 self) x = Ok (conv2d_out (conv_1 self) x)) as E1.
  { apply same_size_success; [by split|simpl; lia..|done|done]. }
  pose proof E1 as (S1 & _)%(same_size_shape (conv_1 self)); [|by split].
  apply HL in S1 as [N1 C1].
  rewrite E1, fmap_Ok, bind_Ok.
  destruct (stage_returns (conv_2 self) x [L (conv2d_out (conv_1 self) x)])
    as (t2 & E2 & S2); [by split|simpl; lia|lia|done|done|by repeat constructor| |].
  { simpl. lia. }
  apply HL in S2 as [N2 C2]. rewrite E2, fmap_Ok, bind_Ok.
  destruct (stage_returns (conv_3 self) x
              [L (conv2d_out (conv_1 self) x); L (conv2d_out (conv_2 self) t2)])
    as (t3 & E3 & S3); [by split|simpl; lia|lia|done|done|by repeat constructor| |].
  { simpl. lia. }
  apply HL in S3 as [N3 C3]. rewrite E3, fmap_Ok, bind_Ok.
  destruct (stage_returns (conv_4 self) x
              [L (conv2d_out (conv_1 self) x); L (conv2d_out (conv_2 self) t2);
               L (conv2d_out (conv_3 self) t3)])
    as (t4 & E4 & S4); [by split|simpl; lia|lia|done|done|by repeat constructor| |].
  { simpl. lia. }
  apply HL in S4 as [N4 C4]. rewrite E4, fmap_Ok, bind_Ok.
  destruct (stage_returns (conv_5 self) x
              [L (conv2d_out (conv_1 self) x); L (conv2d_out (conv_2 self) t2);
               L (conv2d_out (conv_3 self) t3); L (conv2d_out (conv_4 self) t4)])
    as (t5 & E5 & S5); [by split|simpl; lia|lia|done|done|by repeat constructor| |].
  { simpl. lia. }
  rewrite E5, fmap_Ok, bind_Ok. unfold Identity_forward.
  assert (shape (torch_mul (conv2d_out (conv_5 self) t5) (flit 0.2)) = shape x) as S.
  { change (shape (conv2d_out (conv_5 self) t5) = shape x).
    rewrite S5. simpl. rewrite <- HC. by destruct (shape x). }
  destruct (torch_add_same_shape _ x S) as (y & Ey & Sy & Vy).
  exists t5, y. split; [done|]. split; [congruence|].
  intros n c h w Hin. rewrite Vy by (by rewrite S). done.
Qed.

End RDBShapes.

(** ** Congruence of [torch.add] and of the dense block *)
Section ProperFacts.
Context {F : Type} `{Scalar F}.

Lemma broadcast_dim_Some (a b d i : nat) :
  broadcast_dim a b = Some d → i < d → bidx a i < a ∧ bidx b i < b.
Proof.
  unfold broadcast_dim, bidx. repeat case_bool_decide; intros [= <-]; lia.
Qed.

Lemma broadcast_shape_Some (s1 s2 s : Shape) (n c h w : nat) :
  broadcast_shape s1 s2 = Some s → in_shape s n c h w →
  in_shape s1 (bidx (dimN s1) n) (bidx (dimC s1) c) (bidx (dimH s1) h) (bidx (dimW s1) w)
  ∧ in_shape s2 (bidx (dimN s2) n) (bidx (dimC s2) c) (bidx (dimH s2) h) (bidx (dimW s2) w).
Proof.
  unfold broadcast_shape. intros Hs (Hn & Hc & Hh & Hw).
  destruct (broadcast_dim (dimN s1) _) as [dn|] eqn:En; [|done].
  destruct (broadcast_dim (dimC s1) _) as [dc|] eqn:Ec; [|done].
  destruct (broadcast_dim (dimH s1) _) as [dh|] eqn:Eh; [|done].
  destruct (broadcast_dim (dimW s1) _) as [dw|] eqn:Ew; [|done].
  simpl in Hs. injection Hs as <-. simpl in *.
  destruct (broadcast_dim_Some _ _ _ _ En Hn), (broadcast_dim_Some _ _ _ _ Ec Hc),
    (broadcast_dim_Some _ _ _ _ Eh Hh), (broadcast_dim_Some _ _ _ _ Ew Hw).
  by repeat split.
Qed.

Lemma torch_add_proper (a a' b b' : Tensor F) :
  tensor_eq a a' → tensor_eq b b' →
  result_eq (E1:=RuntimeError) (E2:=RuntimeError) (torch_add a b) (torch_add a' b').
Proof.
  intros [Hsa Hva] [Hsb Hvb]. unfold torch_add. rewrite <- Hsa, <- Hsb.
  destruct (broadcast_shape _ _) as [s|] eqn:Es; [|done].
  split; [done|]. intros n c h w Hin. simpl in *.
  destruct (broadcast_shape_Some _ _ _ _ _ _ _ Es Hin) as [Ha Hb].
  unfold expand. rewrite <- Hsa, <- Hsb. f_equal; [by apply Hva | by apply Hvb].
Qed.

Lemma RDB_forward_proper (self : ResidualDenseBlock.t F) (a b : Tensor F) :
  tensor_eq a b →
  result_eq (E1:=RuntimeError) (E2:=RuntimeError)
    (ResidualDenseBlock.forward self a) (ResidualDenseBlock.forward self b).
Proof.
  intros Hab. unfold ResidualDenseBlock.forward.
  assert (∀ m ts ts', Forall2 tensor_eq ts ts' →
            result_eq (E1:=RuntimeError) (E2:=RuntimeError)
              (torch_cat ts ≫= Conv2d_forward m) (torch_cat ts' ≫= Conv2d_forward m))
    as Hstage.
  { intros m ts ts' Hts. apply result_eq_bind; [by apply torch_cat_proper|].
    intros ? ? _ _ ?. by apply Conv2d_forward_proper. }
  rewrite !bind_fmap. apply result_eq_bind; [by apply Conv2d_forward_proper|].
  intros c1 c1' _ _ Hc1.
  apply (LeakyReLU_forward_proper (ResidualDenseBlock.leaky_relu self)) in Hc1.
  rewrite !bind_fmap. apply result_eq_bind; [apply Hstage; solve_Forall2|]. intros c2 c2' _ _ Hc2.
  apply (LeakyReLU_forward_proper (ResidualDenseBlock.leaky_relu self)) in Hc2.
  rewrite !bind_fmap. apply result_eq_bind; [apply Hstage; solve_Forall2|]. intros c3 c3' _ _ Hc3.
  apply (LeakyReLU_forward_proper (ResidualDenseBlock.leaky_relu self)) in Hc3.
  rewrite !bind_fmap. apply result_eq_bind; [apply Hstage; solve_Forall2|]. intros c4 c4' _ _ Hc4.
  apply (LeakyReLU_forward_proper (ResidualDenseBlock.leaky_relu self)) in Hc4.
  rewrite !bind_fmap. apply result_eq_bind; [apply Hstage; solve_Forall2|]. intros c5 c5' _ _ Hc5.
  unfold Identity_forward. apply torch_add_proper; [by apply torch_mul_proper|done].
Qed.

End ProperFacts.

(** ** Zero weights *)
Section ZeroWeights.
Context {F : Type} `{Scalar F} `{!ScalarLaws F}.

(** With a zero fifth convolution the dense block returns its input.
    (Whatever the first four convolutions compute is multiplied by zero
    weights in the fifth.) *)
Lemma RDB_zero_conv_5 (channels growth_channels : nat)
    (sd : ResidualDenseBlock.state_dict F) (x : Tensor F) :
  let self := ResidualDenseBlock.init channels growth_channels sd in
  zero_conv (ResidualDenseBlock.conv_5 self) →
  1 ≤ channels → 1 ≤ growth_channels →
  dimC (shape x) = channels → 1 ≤ dimH (shape x) → 1 ≤ dimW (shape x) →
  ∃ y, ResidualDenseBlock.forward self x = Ok y ∧ tensor_eq y x.
Proof.
  intros self Hz Hch Hg HC HH HW.
  destruct (forward_returns channels growth_channels sd x Hch Hg HC HH HW)
    as (t & y & Ey & Sy & Vy).
  exists y. split; [done|]. split; [done|].
  intros n c h w Hin. rewrite Sy in Hin. rewrite Vy by done.
  rewrite conv2d_out_zero; [|done|].
  - by rewrite fmul_0_l, fadd_0_l.
  - destruct Hin as (_ & Hc & _). simpl. lia.
Qed.

End ZeroWeights.

(** ** ResidualResidualDenseBlock *)
Section RRDBFacts.
Context {F : Type} `{Scalar F}.

(** What a dense block that returns says of its configuration and of its
    input: the first and the fifth convolution ran. *)
Lemma RDB_forward_Ok_inv (channels growth_channels : nat)
    (sd : ResidualDenseBlock.state_dict F) (x y : Tensor F) :
  ResidualDenseBlock.forward (ResidualDenseBlock.init channels growth_channels sd) x = Ok y →
  1 ≤ channels ∧ 1 ≤ growth_channels ∧ dimC (shape x) = channels
  ∧ 1 ≤ dimH (shape x) ∧ 1 ≤ dimW (shape x).
Proof.
  intros Hy. unfold ResidualDenseBlock.forward in Hy.
  apply bind_Ok_inv in Hy as (o1 & (c1 & E1 & _)%fmap_Ok_inv & Hy).
  apply bind_Ok_inv in Hy as (o2 & _ & Hy).
  apply bind_Ok_inv in Hy as (o3 & _ & Hy).
  apply bind_Ok_inv in Hy as (o4 & _ & Hy).
  apply bind_Ok_inv in Hy as (o5 & (c5 & E5 & _)%fmap_Ok_inv & _).
  apply bind_Ok_inv in E5 as (cat5 & _ & E5).
  apply Conv2d_forward_Ok_out in E5. simpl in E5.
  pose proof (Conv2d_forward_Ok_out _ _ _ E1) as Hg. simpl in Hg.
  apply same_size_shape in E1 as (_ & HC & HH & HW); [|by split].
  simpl in HC. repeat split; (done || lia).
Qed.

(** A successful dense block keeps the shape of its input. *)
Lemma RDB_forward_shape (channels growth_channels : nat)
    (sd : ResidualDenseBlock.state_dict F) (x y : Tensor F) :
  ResidualDenseBlock.forward (ResidualDenseBlock.init channels growth_channels sd) x = Ok y →
  shape y = shape x ∧ dimC (shape x) = channels
  ∧ 1 ≤ dimH (shape x) ∧ 1 ≤ dimW (shape x).
Proof.
  intros Hy. pose proof (RDB_forward_Ok_inv _ _ _ _ _ Hy) as (Hch & Hg & HC & HH & HW).
  destruct (forward_returns channels growth_channels sd x Hch Hg HC HH HW)
    as (t & y' & Ey & Sy & _).
  rewrite Hy in Ey. injection Ey as <-. done.
Qed.

Lemma RDB_forward_implements `{!ScalarComm F} (channels growth_channels : nat)
    (sd : ResidualDenseBlock.state_dict F) (a b : Tensor F) :
  let self := ResidualDenseBlock.init channels growth_channels sd in
  tensor_eq a b → result_eq (ResidualDenseBlock.forward self a) (Spec.RDB_block self b).
Proof.
  intros self Hab. eapply result_eq_trans; [by apply RDB_forward_proper|].
  apply forward_implements.
Qed.

Lemma RRDB_forward_implements `{!ScalarComm F} (channels growth_channels : nat)
    (sd : ResidualResidualDenseBlock.state_dict F) (x : Tensor F) :
  let self := ResidualResidualDenseBlock.init channels growth_channels sd in
  result_eq (ResidualResidualDenseBlock.forward self x)
            (Spec.RRDB (Spec.RDB_block (ResidualResidualDenseBlock.rdb_1 self))
                       (Spec.RDB_block (ResidualResidualDenseBlock.rdb_2 self))
                       (Spec.RDB_block (ResidualResidualDenseBlock.rdb_3 self)) x).
Proof.
  intros self. unfold ResidualResidualDenseBlock.forward, Spec.RRDB.
  apply result_eq_bind; [apply RDB_forward_implements, tensor_eq_refl|].
  intros o1 o1' (S1 & _)%RDB_forward_shape _ H1.
  apply result_eq_bind; [by apply RDB_forward_implements|].
  intros o2 o2' (S2 & _)%RDB_forward_shape _ H2.
  apply result_eq_bind; [by apply RDB_forward_implements|].
  intros o3 o3' (S3 & _)%RDB_forward_shape _ H3.
  apply residual_implements; [done|congruence].
Qed.


End RRDBFacts.

(** ** Zero weights, in exact and in floating-point arithmetic *)
Section ZeroArithFacts.
Context {F : Type} `{Scalar F}.





Context `{!ZeroArith F}.











End ZeroArithFacts.

(** ** Exact rationals and binary64 *)

#[export] Instance Qc_ScalarComm : ScalarComm Qc.
Proof.
  split.
  - exact Qcplus_comm.
  - exact Qcmult_comm.
Qed.

#[export] Instance Qc_ScalarLaws : ScalarLaws Qc.
Proof.
  split.
  - exact Qc_ScalarComm.
  - exact Qcplus_0_l.
  - exact Qcmult_0_l.
Qed.

#[export] Instance Qc_ZeroArith : ZeroArith Qc.
Proof.
  split.
  - apply Qcplus_0_l.
  - apply Qcmult_0_l.
  - reflexivity.
  - apply Qcmult_0_l.
Qed.

#[export] Instance float_ZeroArith : ZeroArith PrimFloat.float.
Proof. split; reflexivity. Qed.

(** ** ResidualFeatureDistillationBlock *)
Section RFDBFacts.
Context {F : Type} `{Scalar F}.
Variable EnhancedSpatialAttention : nat → Tensor F → result RuntimeError (Tensor F).
Import ResidualFeatureDistillationBlock.

Lemma bind_assoc {E A B C} (m : result E A) (f : A → result E B) (g : B → result E C) :
  (m ≫= f) ≫= g = m ≫= λ a, f a ≫= g.
Proof. by destruct m. Qed.

(** A same-size convolution with as many output as input channels keeps
    the shape. *)
Lemma conv_keeps_shape (m : Conv2d F) (x y : Tensor F) :
  same_size m → out_channels m = in_channels m →
  Conv2d_forward m x = Ok y → shape y = shape x.
Proof.
  intros Hm Hio (-> & HC & _)%(same_size_shape m); [|done].
  rewrite Hio, <- HC. by destruct (shape x).
Qed.

Lemma RFDB_forward_implements (channels : nat) (sd : state_dict F) (x : Tensor F) :
  let self := init EnhancedSpatialAttention channels sd in
  (∀ a b, tensor_eq a b → result_eq (esa self a) (esa self b)) →
  result_eq (forward self x) (Spec.RFDB_block self x).
Proof.
  intros self Hesa. unfold forward, forward_cat, Spec.RFDB_block, Spec.RFDB.
  pose proof (tensor_eq_refl x) as Hx.
  pose proof (leaky_relu_implements (flit 0.05) true) as HL.
  (* stage 1 *)
  rewrite bind_assoc. apply result_eq_bind; [by apply Conv2D_implements|].
  intros d1 d1' _ _ Hd1%HL. cbv zeta.
  rewrite bind_assoc. apply result_eq_bind; [by apply Conv2D_implements|].
  intros c1 c1' S1%conv_keeps_shape _ Hc1; [|by split|done].
  rewrite bind_assoc. apply result_eq_bind; [by apply add_implements|].
  intros r1 r1' _ _ Hr1%HL. cbv zeta.
  (* stage 2 *)
  rewrite bind_assoc. apply result_eq_bind; [by apply Conv2D_implements|].
  intros d2 d2' _ _ Hd2%HL. cbv zeta.
  rewrite bind_assoc. apply result_eq_bind; [by apply Conv2D_implements|].
  intros c2 c2' S2%conv_keeps_shape _ Hc2; [|by split|done].
  rewrite bind_assoc. apply result_eq_bind; [by apply add_implements|].
  intros r2 r2' _ _ Hr2%HL. cbv zeta.
  (* stage 3 *)
  rewrite bind_assoc. apply result_eq_bind; [by apply Conv2D_implements|].
  intros d3 d3' _ _ Hd3%HL. cbv zeta.
  rewrite bind_assoc. apply result_eq_bind; [by apply Conv2D_implements|].
  intros c3 c3' S3%conv_keeps_shape _ Hc3; [|by split|done].
  rewrite bind_assoc. apply result_eq_bind; [by apply add_implements|].
  intros r3 r3' _ _ Hr3%HL. cbv zeta.
  (* the fourth convolution, the fusion and the gate *)
  rewrite bind_assoc. apply result_eq_bind; [by apply Conv2D_implements|].
  intros r4 r4' _ _ Hr4%HL. cbv zeta.
  rewrite (bind_assoc (Spec.concat_channels _)).
  apply result_eq_bind; [apply torch_cat_implements; solve_Forall2|].
  intros cat cat' _ _ Hcat.
  apply result_eq_bind; [by apply Conv2D_implements|].
  intros fused fused' _ _ Hfused.
  by apply operator_implements, Hesa.
Qed.

(** The tensor handed to [conv_5] has four times [distilled_channels]
    channels, the input width [conv_5] was built with. *)
Lemma forward_cat_channels (channels : nat) (sd : state_dict F) (x t : Tensor F) :
  let self := init EnhancedSpatialAttention channels sd in
  forward_cat self x = Ok t →
  dimC (shape t) = 4 * distilled_channels self
  ∧ dimC (shape t) = in_channels (conv_5 self).
Proof.
  intros self. unfold forward_cat.
  intros (d1 & (-> & _)%Conv2d_forward_Ok & Ht)%bind_Ok_inv.
  apply bind_Ok_inv in Ht as (c1 & _ & Ht). apply bind_Ok_inv in Ht as (r1 & _ & Ht).
  apply bind_Ok_inv in Ht as (d2 & (-> & _)%Conv2d_forward_Ok & Ht).
  apply bind_Ok_inv in Ht as (c2 & _ & Ht). apply bind_Ok_inv in Ht as (r2 & _ & Ht).
  apply bind_Ok_inv in Ht as (d3 & (-> & _)%Conv2d_forward_Ok & Ht).
  apply bind_Ok_inv in Ht as (c3 & _ & Ht). apply bind_Ok_inv in Ht as (r3 & _ & Ht).
  apply bind_Ok_inv in Ht as (r4 & (-> & _)%Conv2d_forward_Ok & Ht).
  apply torch_cat_shape in Ht. rewrite Ht. simpl. lia.
Qed.

(** With at least two channels (so that [distilled_channels] is not zero),
    on an input with the configured channel count and a non-empty spatial
    extent, the first part of [forward] returns. *)
Lemma forward_cat_returns (channels : nat) (sd : state_dict F) (x : Tensor F) :
  let self := init EnhancedSpatialAttention channels sd in
  2 ≤ channels →
  dimC (shape x) = channels → 1 ≤ dimH (shape x) → 1 ≤ dimW (shape x) →
  ∃ t, forward_cat self x = Ok t ∧
       shape t = mkShape (dimN (shape x)) (4 * (channels / 2))
                         (dimH (shape x)) (dimW (shape x)).
Proof.
  intros self Hch HC HH HW. unfold forward_cat.
  assert (1 ≤ channels / 2) as Hd by (apply Nat.div_str_pos; lia).
  set (L := LeakyReLU_forward (leaky_relu self)).
  (* a remaining stage: convolve, add the stage input, activate *)
  assert (∀ m (r : Tensor F),
            same_size m → in_channels m = channels → out_channels m = channels →
            shape r = shape x →
            ∃ s, (Conv2d_forward m r ≫= λ c, torch_add c r) = Ok s ∧ shape (L s) = shape x)
    as Hrem.
  { intros m r Hm Hi Ho Sr.
    assert (Conv2d_forward m r = Ok (conv2d_out m r)) as E
      by (apply same_size_success; rewrite ?Sr; (done || lia)).
    pose proof E as S%conv_keeps_shape; [|done|congruence].
    destruct (torch_add_same_shape _ r S) as (s & Es & Ss & _).
    exists s. rewrite E, bind_Ok. split; [done|]. simpl. congruence. }
  (* a distilled stage: convolve *)
  assert (∀ m (r : Tensor F),
            same_size m → in_channels m = channels → 1 ≤ out_channels m →
            shape r = shape x →
            Conv2d_forward m r = Ok (conv2d_out m r) ∧
            shape (L (conv2d_out m r))
            = mkShape (dimN (shape x)) (out_channels m) (dimH (shape x)) (dimW (shape x)))
    as Hdis.
  { intros m r Hm Hi Ho Sr.
    assert (Conv2d_forward m r = Ok (conv2d_out m r)) as E
      by (apply same_size_success; rewrite ?Sr; (done || lia)).
    split; [done|]. apply (same_size_shape m) in E as (E & _); [|done].
    change (shape (L (conv2d_out m r))) with (shape (conv2d_out m r)).
    rewrite E, Sr. done. }
  destruct (Hdis (conv_1_distilled self) x) as (E1d & S1d); [by split|done|exact Hd|done|].
  rewrite E1d, bind_Ok. cbv zeta.
  destruct (Hrem (conv_1_remaining self) x) as (r1 & E1r & S1r); [by split|done..|].
  rewrite <- bind_assoc, E1r, bind_Ok. cbv zeta.
  destruct (Hdis (conv_2_distilled self) (L r1)) as (E2d & S2d); [by split|done|exact Hd|done|].
  rewrite E2d, bind_Ok. cbv zeta.
  destruct (Hrem (conv_2_remaining self) (L r1)) as (r2 & E2r & S2r); [by split|done..|].
  rewrite <- bind_assoc, E2r, bind_Ok. cbv zeta.
  destruct (Hdis (conv_3_distilled self) (L r2)) as (E3d & S3d); [by split|done|exact Hd|done|].
  rewrite E3d, bind_Ok. cbv zeta.
  destruct (Hrem (conv_3_remaining self) (L r2)) as (r3 & E3r & S3r); [by split|done..|].
  rewrite <- bind_assoc, E3r, bind_Ok. cbv zeta.
  destruct (Hdis (conv_4 self) (L r3)) as (E4 & S4); [by split|done|exact Hd|done|].
  rewrite E4, bind_Ok. cbv zeta.
  match goal with
  | |- ∃ t, torch_cat (?d :: ?rest) = Ok t ∧ _ =>
      destruct (torch_cat_success d rest) as [t Ht]
  end.
  { repeat constructor; apply same_NHW_spec; rewrite ?S1d, ?S2d, ?S3d, ?S4; done. }
  exists t. split; [done|]. apply torch_cat_shape in Ht. rewrite Ht.
  fold L. rewrite S1d. simpl. f_equal; lia.
Qed.

End RFDBFacts.

(** ** Buffers: the in-place operations never touch the caller's tensors *)

Section HeapFacts.
Context {F : Type} `{Scalar F}.
Import Heap.

Local Abbreviation heap := (gmap nat (Tensor F)).

Lemma yields_weaken (m : St nat) (env env' h : heap) p :
  env ⊆ env' → yields m env' h p → yields m env h p.
Proof.
  intros Hsub. destruct p as [t|e]; simpl; [|done].
  intros (r & h' & Hm & Hr & Hh'). exists r, h'. split; [done|]. split.
  - by eapply lookup_weaken_None.
  - etrans; [|exact Hh']. by apply insert_mono.
Qed.

Lemma St_bind_Ok {A B} (m : St A) (f : A → St B) (h h' : heap) (a : A) :
  m h = Ok (a, h') → (m ≫= f) h = f a h'.
Proof. intros Hm. unfold mbind, St_bind. by rewrite Hm. Qed.

Lemma St_bind_Raise {A B} (m : St A) (f : A → St B) (h : heap) (e : RuntimeError) :
  m h = Raise e → (m ≫= f) h = Raise e.
Proof. intros Hm. unfold mbind, St_bind. by rewrite Hm. Qed.

(** [yields] looks at the outcome of the run only. *)
Lemma yields_eq (m1 m2 : St nat) (env h1 h2 : heap) p :
  m1 h1 = m2 h2 → yields m2 env h2 p → yields m1 env h1 p.
Proof. intros Heq. destruct p; simpl; by rewrite Heq. Qed.

(** Sequencing when the first result is a temporary. *)
Lemma yields_bind_tmp (m : St nat) (f : nat → St nat) (env h : heap) p g :
  yields m env h p →
  (∀ r t h', p = Ok t → env !! r = None → <[r := t]> env ⊆ h' →
             yields (f r) env h' (g t)) →
  yields (m ≫= f) env h (p ≫= g).
Proof.
  destruct p as [t|e]; simpl.
  - intros (r & h' & Hm & Hr & Hh') Hf. rewrite ?bind_Ok.
    eapply yields_eq; [by apply St_bind_Ok|]. by apply Hf.
  - intros Hm _. by apply St_bind_Raise.
Qed.

(** Sequencing when the first result is kept: it joins the environment. *)
Lemma yields_bind (m : St nat) (f : nat → St nat) (env h : heap) p g :
  yields m env h p →
  (∀ r t h', p = Ok t → env !! r = None → <[r := t]> env ⊆ h' →
             yields (f r) (<[r := t]> env) h' (g t)) →
  yields (m ≫= f) env h (p ≫= g).
Proof.
  intros Hm Hf. apply yields_bind_tmp; [done|].
  intros r t h' Hp Hr Hh'. eapply yields_weaken; [|by apply Hf].
  by apply insert_subseteq.
Qed.

Lemma fresh_not_in_env (env h : heap) : env ⊆ h → env !! fresh (dom h) = None.
Proof.
  intros Hsub. eapply lookup_weaken_None; [|exact Hsub].
  apply not_elem_of_dom, is_fresh.
Qed.

Lemma alloc_yields (t : Tensor F) (env h : heap) :
  env ⊆ h → yields (alloc t) env h (Ok t).
Proof.
  intros Hsub. eexists _, _. split; [done|]. split.
  - by apply fresh_not_in_env.
  - by apply insert_mono.
Qed.

Lemma lift_alloc_yields (p : result RuntimeError (Tensor F)) (env h : heap) :
  env ⊆ h → yields (lift p ≫= alloc) env h p.
Proof.
  intros Hsub. destruct p as [t|e]; [|done]. by apply alloc_yields.
Qed.

(** Reading a buffer that is in the heap. *)
Lemma read_bind {B} (r : nat) (t : Tensor F) (f : Tensor F → St B) (h : heap) :
  h !! r = Some t → (read r ≫= f) h = f t h.
Proof.
  intros Hr. erewrite St_bind_Ok; [done|]. unfold read.
  by rewrite (lookup_total_correct _ _ _ Hr).
Qed.

Lemma Conv2d_call_yields (m : Conv2d F) (r : nat) (t : Tensor F) (env h : heap) :
  env ⊆ h → h !! r = Some t → yields (Conv2d_call m r) env h (Conv2d_forward m t).
Proof.
  intros Hsub Hr. eapply yields_eq; [by apply read_bind|].
  by apply lift_alloc_yields.
Qed.

Lemma torch_mul_call_yields (r : nat) (t : Tensor F) (k : F) (env h : heap) :
  env ⊆ h → h !! r = Some t → yields (torch_mul_call r k) env h (Ok (torch_mul t k)).
Proof.
  intros Hsub Hr. eapply yields_eq; [by apply read_bind|]. by apply alloc_yields.
Qed.

Lemma torch_add_call_yields (r1 r2 : nat) (t1 t2 : Tensor F) (env h : heap) :
  env ⊆ h → h !! r1 = Some t1 → h !! r2 = Some t2 →
  yields (torch_add_call r1 r2) env h (torch_add t1 t2).
Proof.
  intros Hsub Hr1 Hr2. eapply yields_eq; [by apply read_bind|].
  eapply yields_eq; [by apply read_bind|]. by apply lift_alloc_yields.
Qed.

Lemma torch_cat_call_yields (rs : list nat) (ts : list (Tensor F)) (env h : heap) :
  env ⊆ h → Forall2 (λ r t, h !! r = Some t) rs ts →
  yields (torch_cat_call rs) env h (torch_cat ts).
Proof.
  intros Hsub Hrs. unfold torch_cat_call.
  assert ((λ r, h !!! r) <$> rs = ts) as Hts.
  { induction Hrs as [|r t rs ts Hr _ IH]; [done|].
    rewrite fmap_cons, IH. by rewrite (lookup_total_correct _ _ _ Hr). }
  eapply yields_eq; [apply St_bind_Ok; reflexivity|]. rewrite Hts.
  by apply lift_alloc_yields.
Qed.

(** The activation may overwrite its argument: the argument must not be one
    of the buffers of the environment. *)
Lemma LeakyReLU_call_yields (m : LeakyReLU F) (r : nat) (t : Tensor F) (env h : heap) :
  env ⊆ h → env !! r = None → h !! r = Some t →
  yields (LeakyReLU_call m r) env h (Ok (LeakyReLU_forward m t)).
Proof.
  intros Hsub Hfresh Hr. eapply yields_eq; [by apply read_bind|].
  destruct (inplace m); [|by apply alloc_yields].
  eexists r, _. split; [done|]. split; [done|]. by apply insert_mono.
Qed.

Lemma Identity_call_yields (r : nat) (t : Tensor F) (env h : heap) :
  env ⊆ h → env !! r = None → h !! r = Some t →
  yields (Identity_call r) env h (Ok (Identity_forward t)).
Proof.
  intros Hsub Hfresh Hr. eexists r, h. split; [done|]. split; [done|].
  by apply insert_subseteq_l.
Qed.

(** What a continuation knows about a temporary. *)
Lemma tmp_facts (env h : heap) (r : nat) (t : Tensor F) :
  env !! r = None → <[r := t]> env ⊆ h → env ⊆ h ∧ h !! r = Some t.
Proof.
  intros Hr Hsub. split.
  - etrans; [|exact Hsub]. by apply insert_subseteq.
  - eapply lookup_weaken; [|exact Hsub]. apply lookup_insert_eq.
Qed.

(** One dense stage on buffers. *)
Lemma dense_stage_yields (m : Conv2d F) (lr : LeakyReLU F) (rs : list nat)
    (ts : list (Tensor F)) (env h : heap) :
  env ⊆ h → Forall2 (λ r t, h !! r = Some t) rs ts →
  yields ((torch_cat_call rs ≫= Conv2d_call m) ≫= LeakyReLU_call lr) env h
         (LeakyReLU_forward lr <$> (torch_cat ts ≫= Conv2d_forward m)).
Proof.
  intros Hsub Hrs. rewrite fmap_as_bind.
  apply yields_bind_tmp.
  - apply yields_bind_tmp; [by apply torch_cat_call_yields|].
    intros r t h' _ Hr [Hsub' Hr']%tmp_facts; [|done]. by apply Conv2d_call_yields.
  - intros r t h' _ Hr [Hsub' Hr']%tmp_facts; [|done]. by apply LeakyReLU_call_yields.
Qed.

Lemma lookup_env (env h : heap) (r : nat) (t : Tensor F) :
  env ⊆ h → env !! r = Some t → h !! r = Some t.
Proof. intros Hsub Hr. by eapply lookup_weaken. Qed.

Lemma lookup_env_insert (env : heap) (r r' : nat) (t t' : Tensor F) :
  env !! r' = None → env !! r = Some t → <[r' := t']> env !! r = Some t.
Proof. intros Hr' Hr. rewrite lookup_insert_ne; [done|]. congruence. Qed.

Lemma Identity_stage_yields (m : Conv2d F) (rs : list nat)
    (ts : list (Tensor F)) (env h : heap) :
  env ⊆ h → Forall2 (λ r t, h !! r = Some t) rs ts →
  yields ((torch_cat_call rs ≫= Conv2d_call m) ≫= Identity_call) env h
         (Identity_forward <$> (torch_cat ts ≫= Conv2d_forward m)).
Proof.
  intros Hsub Hrs. rewrite fmap_as_bind.
  apply yields_bind_tmp.
  - apply yields_bind_tmp; [by apply torch_cat_call_yields|].
    intros r t h' _ Hr [Hsub' Hr']%tmp_facts; [|done]. by apply Conv2d_call_yields.
  - intros r t h' _ Hr [Hsub' Hr']%tmp_facts; [|done]. by apply Identity_call_yields.
Qed.

(** Sequencing after a call that cannot raise. *)
Lemma yields_let (m : St nat) (f : nat → St nat) (env h : heap) (t : Tensor F) q :
  yields m env h (Ok t) →
  (∀ r h', env !! r = None → <[r := t]> env ⊆ h' → yields (f r) (<[r := t]> env) h' q) →
  yields (m ≫= f) env h q.
Proof.
  intros Hm Hf. change q with (Ok t ≫= λ _ : Tensor F, q).
  apply yields_bind; [done|]. intros r t' h' [= <-]. apply Hf.
Qed.

End HeapFacts.

(** Looking a tracked buffer up, in the environment and in the heap. *)
Ltac solve_env_lookup :=
  first [ eassumption
        | apply lookup_insert_eq
        | apply lookup_env_insert; [eassumption | solve_env_lookup] ].

Ltac solve_heap_lookup :=
  first [ eassumption | eapply lookup_env; [eassumption | solve_env_lookup] ].

Ltac solve_heap_lookups :=
  repeat match goal with
         | |- Forall2 _ _ _ => constructor
         end;
  solve_heap_lookup.

(** One statement of [forward] on buffers: a convolution or an addition
    into a temporary, and an activation whose result is kept. *)
Ltac conv_step c :=
  let t := fresh "t" c in let h := fresh "h" c in
  let Hf := fresh "F" c in let Hs := fresh "S" c in let Hc := fresh "L" c in
  rewrite ?bind_assoc;
  apply yields_bind_tmp; [apply Conv2d_call_yields; [eassumption|solve_heap_lookup]|];
  intros c t h _ Hf [Hs Hc]%tmp_facts; [|eassumption].

Ltac add_step s :=
  let t := fresh "t" s in let h := fresh "h" s in
  let Hf := fresh "F" s in let Hs := fresh "S" s in let Hc := fresh "L" s in
  rewrite ?bind_assoc;
  apply yields_bind_tmp;
    [apply torch_add_call_yields; [eassumption|solve_heap_lookup..]|];
  intros s t h _ Hf [Hs Hc]%tmp_facts; [|eassumption].

Ltac activation_step o :=
  let h := fresh "h" o in let Hf := fresh "F" o in let Hs := fresh "S" o in
  eapply yields_let;
    [apply LeakyReLU_call_yields; [eassumption|eassumption|eassumption]|];
  intros o h Hf Hs.

Section HeapBlocks.
Context {F : Type} `{Scalar F}.
Import Heap.

Local Abbreviation heap := (gmap nat (Tensor F)).

Lemma RDB_forward_yields (self : ResidualDenseBlock.t F) (x : nat) (tx : Tensor F)
    (env h : heap) :
  env ⊆ h → env !! x = Some tx →
  yields (RDB_forward self x) env h (ResidualDenseBlock.forward self tx).
Proof.
  intros Hsub Hx. unfold RDB_forward, ResidualDenseBlock.forward.
  apply yields_bind.
  { rewrite fmap_as_bind. apply yields_bind_tmp.
    - apply Conv2d_call_yields; [done|solve_heap_lookup].
    - intros r t h' _ Hr [Hsub' Hr']%tmp_facts; [|done].
      by apply LeakyReLU_call_yields. }
  intros out_1 t1 h1 _ F1 S1.
  apply yields_bind; [apply dense_stage_yields; [done|solve_heap_lookups]|].
  intros out_2 t2 h2 _ F2 S2.
  apply yields_bind; [apply dense_stage_yields; [done|solve_heap_lookups]|].
  intros out_3 t3 h3 _ F3 S3.
  apply yields_bind; [apply dense_stage_yields; [done|solve_heap_lookups]|].
  intros out_4 t4 h4 _ F4 S4.
  apply yields_bind; [apply Identity_stage_yields; [done|solve_heap_lookups]|].
  intros out_5 t5 h5 _ F5 S5.
  change (torch_add (torch_mul t5 (flit 0.2)) tx)
    with (Ok (torch_mul t5 (flit 0.2)) ≫= λ out, torch_add out tx).
  apply yields_bind; [apply torch_mul_call_yields; [done|solve_heap_lookup]|].
  intros out t h6 _ F6 S6.
  apply torch_add_call_yields; [done|solve_heap_lookup..].
Qed.

Lemma RRDB_forward_yields (self : ResidualResidualDenseBlock.t F) (x : nat)
    (tx : Tensor F) (env h : heap) :
  env ⊆ h → env !! x = Some tx →
  yields (RRDB_forward self x) env h (ResidualResidualDenseBlock.forward self tx).
Proof.
  intros Hsub Hx. unfold RRDB_forward, ResidualResidualDenseBlock.forward.
  apply yields_bind; [by apply RDB_forward_yields|].
  intros o1 t1 h1 _ F1 S1.
  apply yields_bind; [apply RDB_forward_yields; [done|solve_env_lookup]|].
  intros o2 t2 h2 _ F2 S2.
  apply yields_bind; [apply RDB_forward_yields; [done|solve_env_lookup]|].
  intros o3 t3 h3 _ F3 S3.
  change (torch_add (torch_mul t3 (flit 0.2)) tx)
    with (Ok (torch_mul t3 (flit 0.2)) ≫= λ out, torch_add out tx).
  apply yields_bind; [apply torch_mul_call_yields; [done|solve_heap_lookup]|].
  intros out t h4 _ F4 S4.
  apply torch_add_call_yields; [done|solve_heap_lookup..].
Qed.

Lemma RFDB_forward_yields (self : ResidualFeatureDistillationBlock.t F)
    (esa_call : nat → St nat) (x : nat) (tx : Tensor F) (env h : heap) :
  gate_ok (ResidualFeatureDistillationBlock.esa self) esa_call →
  env ⊆ h → env !! x = Some tx →
  yields (RFDB_forward self esa_call x) env h
         (ResidualFeatureDistillationBlock.forward self tx).
Proof.
  intros Hgate Hsub Hx.
  unfold RFDB_forward, ResidualFeatureDistillationBlock.forward,
    ResidualFeatureDistillationBlock.forward_cat.
  cbv zeta.
  (* distilled_conv_1 *)
  conv_step c1d. activation_step d1.
  (* remaining_conv_1 *)
  conv_step c1r. add_step s1. activation_step r1.
  (* distilled_conv_2 *)
  conv_step c2d. activation_step d2.
  (* remaining_conv_2 *)
  conv_step c2r. add_step s2. activation_step r2.
  (* distilled_conv_3 *)
  conv_step c3d. activation_step d3.
  (* remaining_conv_3 *)
  conv_step c3r. add_step s3. activation_step r3.
  (* remaining_conv_4 *)
  conv_step c4. activation_step r4.
  (* out *)
  apply yields_bind_tmp; [apply torch_cat_call_yields; [done|solve_heap_lookups]|].
  intros out tout h' _ Fout [Hsub' Hout]%tmp_facts; [|done].
  apply yields_bind_tmp; [by apply Conv2d_call_yields|].
  intros fused tf h'' _ Ff [Hsub'' Hfused]%tmp_facts; [|done].
  by apply Hgate.
Qed.

End HeapBlocks.

(** * The claims *)

Section Claims.
Context {F : Type} {scalar : Scalar F}.

Lemma RRDB_forward_returns (channels growth_channels : nat)
    (sd : ResidualResidualDenseBlock.state_dict F) (x : Tensor F) :
  let self := ResidualResidualDenseBlock.init channels growth_channels sd in
  1 ≤ channels → 1 ≤ growth_channels →
  dimC (shape x) = channels → 1 ≤ dimH (shape x) → 1 ≤ dimW (shape x) →
  ∃ y, ResidualResidualDenseBlock.forward self x = Ok y ∧ shape y = shape x.
Proof.
  intros self Hch Hg HC HH HW. unfold ResidualResidualDenseBlock.forward.
  destruct (forward_returns channels growth_channels
              (ResidualResidualDenseBlock.sd_1 sd) x Hch Hg HC HH HW)
    as (_ & o1 & E1 & S1 & _).
  destruct (forward_returns channels growth_channels
              (ResidualResidualDenseBlock.sd_2 sd) o1) as (_ & o2 & E2 & S2 & _);
    [done|done|by rewrite S1..|].
  destruct (forward_returns channels growth_channels
              (ResidualResidualDenseBlock.sd_3 sd) o2) as (_ & o3 & E3 & S3 & _);
    [done|done|by rewrite S2, S1..|].
  change (ResidualResidualDenseBlock.rdb_1 self)
    with (ResidualDenseBlock.init channels growth_channels
            (ResidualResidualDenseBlock.sd_1 sd)).
  change (ResidualResidualDenseBlock.rdb_2 self)
    with (ResidualDenseBlock.init channels growth_channels
            (ResidualResidualDenseBlock.sd_2 sd)).
  change (ResidualResidualDenseBlock.rdb_3 self)
    with (ResidualDenseBlock.init channels growth_channels
            (ResidualResidualDenseBlock.sd_3 sd)).
  rewrite E1, bind_Ok, E2, bind_Ok, E3, bind_Ok.
  assert (shape (torch_mul o3 (flit 0.2)) = shape x) as S by (simpl; congruence).
  destruct (torch_add_same_shape _ x S) as (y & Ey & Sy & _).
  exists y. split; [done|congruence].
Qed.

(** C1.  For every input [x] with [C == channels], [forward] of a dense
    block computes the five-stage pipeline of the specification: [out1] to
    [out4] are LeakyReLU with slope 0.2 of a convolution of the concatenation
    of [x] with all earlier stage outputs, [out5] is the fifth convolution of
    [concat(x, out1, out2, out3, out4)] without activation, and the result is
    [x + 0.2 * out5].  The two agree as outcomes (both raise, or both return
    equal tensors); the only law of arithmetic used is the commutativity of
    the sum and of the product, the code computing [out5 * 0.2 + x].  When
    the block has at least one channel and one growth channel and the input a
    non-empty spatial extent, [forward] returns. *)
Theorem RDB_forward_is_dense_pipeline `{!ScalarComm F} (channels growth_channels : nat)
    (sd : ResidualDenseBlock.state_dict F) (x : Tensor F) :
  let self := ResidualDenseBlock.init channels growth_channels sd in
  dimC (shape x) = channels →
  result_eq (ResidualDenseBlock.forward self x) (Spec.RDB_block self x)
  ∧ (1 ≤ channels → 1 ≤ growth_channels →
     1 ≤ dimH (shape x) → 1 ≤ dimW (shape x) →
     is_ok (ResidualDenseBlock.forward self x) = true).
Proof.
  intros self HC. split; [apply forward_implements|].
  intros Hch Hg HH HW.
  destruct (forward_returns channels growth_channels sd x Hch Hg HC HH HW)
    as (_ & y & Ey & _).
  unfold self. by rewrite Ey.
Qed.

(** C2.  For every input [x], [forward] of the residual stack computes
    [x + 0.2 * RDB3(RDB2(RDB1(x)))]: the three dense blocks, each with its own
    parameters and each with its own inner 0.2 residual, run in sequence, and
    the outer 0.2 residual is applied once around them; the only law of
    arithmetic used is the commutativity of the sum and of the product.  When
    the block has at least one channel and one growth channel, on an input
    with [C == channels] and non-empty spatial extent [forward] returns. *)
Theorem RRDB_forward_is_residual_stack `{!ScalarComm F} (channels growth_channels : nat)
    (sd : ResidualResidualDenseBlock.state_dict F) (x : Tensor F) :
  let self := ResidualResidualDenseBlock.init channels growth_channels sd in
  result_eq (ResidualResidualDenseBlock.forward self x)
            (Spec.RRDB (Spec.RDB_block (ResidualResidualDenseBlock.rdb_1 self))
                       (Spec.RDB_block (ResidualResidualDenseBlock.rdb_2 self))
                       (Spec.RDB_block (ResidualResidualDenseBlock.rdb_3 self)) x)
  ∧ (1 ≤ channels → 1 ≤ growth_channels →
     dimC (shape x) = channels → 1 ≤ dimH (shape x) → 1 ≤ dimW (shape x) →
     is_ok (ResidualResidualDenseBlock.forward self x) = true).
Proof.
  intros self. split; [apply RRDB_forward_implements|].
  intros Hch Hg HC HH HW.
  destruct (RRDB_forward_returns channels growth_channels sd x Hch Hg HC HH HW)
    as (y & Ey & _).
  unfold self. by rewrite Ey.
Qed.



(** C5.  For every valid configuration (at least one channel and one growth
    channel), every set of parameters and every input [x] of shape
    [(N, channels, H, W)] (of non-empty spatial extent), [forward x]
    returns a tensor of shape [(N, channels, H, W)]: every
    convolution has stride 1 and padding [(kernel_size - 1) / 2], and the
    fifth one has [channels] output channels. *)
Theorem RDB_forward_preserves_shape (channels growth_channels : nat)
    (sd : ResidualDenseBlock.state_dict F) (x : Tensor F) (N H W : nat) :
  let self := ResidualDenseBlock.init channels growth_channels sd in
  1 ≤ channels → 1 ≤ growth_channels →
  shape x = mkShape N channels H W → 1 ≤ H → 1 ≤ W →
  (∃ y, ResidualDenseBlock.forward self x = Ok y ∧ shape y = mkShape N channels H W)
  ∧ Forall (λ m, stride m = 1 ∧ padding m = (kernel_size m - 1) / 2)
           [ResidualDenseBlock.conv_1 self; ResidualDenseBlock.conv_2 self;
            ResidualDenseBlock.conv_3 self; ResidualDenseBlock.conv_4 self;
            ResidualDenseBlock.conv_5 self]
  ∧ out_channels (ResidualDenseBlock.conv_5 self) = channels.
Proof.
  intros self Hch Hg Sx HH HW. split; [|split; [by repeat constructor|done]].
  destruct (forward_returns channels growth_channels sd x) as (_ & y & Ey & Sy & _);
    [done|done|by rewrite Sx..|].
  exists y. split; [done|congruence].
Qed.

End Claims.

Section ClaimsRFDB.
Context {F : Type} {scalar : Scalar F}.
Variable EnhancedSpatialAttention : nat → Tensor F → result RuntimeError (Tensor F).

(** C6.  For every input [x], [forward] of the distillation block computes
    the pipeline of the specification: three stages whose distilled branch
    is a 1x1 convolution then LeakyReLU with slope 0.05, and whose remaining
    branch is a 3x3 convolution added to the input of the stage, then
    LeakyReLU with slope 0.05; a fourth 3x3 convolution then LeakyReLU with
    slope 0.05; a 1x1 convolution of [concat(d1, d2, d3, r4)]; and the
    attention gate.  When the block has at least two channels (so that
    [distilled_channels = channels // 2] is not zero), on an input of the
    configured width (and non-empty spatial extent) the result of [forward]
    is the gate's result on the fused tensor: the gate is called once,
    last. *)
Theorem RFDB_forward_is_distillation_pipeline (channels : nat)
    (sd : ResidualFeatureDistillationBlock.state_dict F) (x : Tensor F) :
  let self := ResidualFeatureDistillationBlock.init EnhancedSpatialAttention channels sd in
  (∀ a b, tensor_eq a b →
          result_eq (ResidualFeatureDistillationBlock.esa self a)
                    (ResidualFeatureDistillationBlock.esa self b)) →
  2 ≤ channels →
  dimC (shape x) = channels → 1 ≤ dimH (shape x) → 1 ≤ dimW (shape x) →
  result_eq (ResidualFeatureDistillationBlock.forward self x) (Spec.RFDB_block self x)
  ∧ ∃ t fused,
      ResidualFeatureDistillationBlock.forward_cat self x = Ok t
      ∧ Conv2d_forward (ResidualFeatureDistillationBlock.conv_5 self) t = Ok fused
      ∧ shape fused = shape x
      ∧ ResidualFeatureDistillationBlock.forward self x
        = ResidualFeatureDistillationBlock.esa self fused.
Proof.
  intros self Hesa Hch HC HH HW. split; [by apply RFDB_forward_implements|].
  destruct (forward_cat_returns EnhancedSpatialAttention channels sd x Hch HC HH HW)
    as (t & Et & St).
  assert (1 ≤ channels / 2) as Hd by (apply Nat.div_str_pos; lia).
  assert (Conv2d_forward (ResidualFeatureDistillationBlock.conv_5 self) t
          = Ok (conv2d_out (ResidualFeatureDistillationBlock.conv_5 self) t)) as E5.
  { apply same_size_success;
      [by split|simpl; lia|change (1 ≤ channels / 2 * 4); lia
      |rewrite St; simpl; lia|by rewrite St..]. }
  exists t, (conv2d_out (ResidualFeatureDistillationBlock.conv_5 self) t).
  split; [done|]. split; [done|]. split.
  - apply (same_size_shape (ResidualFeatureDistillationBlock.conv_5 self)) in E5
      as (-> & _); [|by split].
    rewrite St. simpl. rewrite <- HC. by destruct (shape x).
  - unfold ResidualFeatureDistillationBlock.forward. subst self.
    by rewrite Et, bind_Ok, E5, bind_Ok.
Qed.

(** C7.  A distillation block built with [channels = 64] has
    [distilled_channels = 32]; on every input (of width 64 and non-empty
    spatial extent) the concatenation handed to the fusion convolution has
    [4 * distilled_channels = 128] channels, the input width that convolution
    was built with. *)
Theorem RFDB_64_channel_counts (sd : ResidualFeatureDistillationBlock.state_dict F)
    (x : Tensor F) :
  let self := ResidualFeatureDistillationBlock.init EnhancedSpatialAttention 64 sd in
  dimC (shape x) = 64 → 1 ≤ dimH (shape x) → 1 ≤ dimW (shape x) →
  ResidualFeatureDistillationBlock.distilled_channels self = 32
  ∧ in_channels (ResidualFeatureDistillationBlock.conv_5 self) = 128
  ∧ ∃ t, ResidualFeatureDistillationBlock.forward_cat self x = Ok t
         ∧ dimC (shape t) = 4 * ResidualFeatureDistillationBlock.distilled_channels self
         ∧ dimC (shape t) = 128.
Proof.
  intros self HC HH HW. split; [done|]. split; [done|].
  destruct (forward_cat_returns EnhancedSpatialAttention 64 sd x) as (t & Et & _);
    [lia|done..|].
  exists t. split; [done|].
  apply forward_cat_channels in Et as [E1 E2]. split; [done|]. by rewrite E2.
Qed.

End ClaimsRFDB.

Section ClaimsLibrary.
Context {F : Type} {scalar : Scalar F}.

Lemma broadcast_dim_None (a b : nat) : incompatible_dim a b → broadcast_dim a b = None.
Proof.
  intros (Hab & Ha & Hb). unfold broadcast_dim.
  by rewrite !bool_decide_eq_false_2.
Qed.

Lemma broadcast_dim_not_truncated (a b d : nat) :
  broadcast_dim a b = Some d → (a = d ∨ a = 1) ∧ (b = d ∨ b = 1).
Proof.
  unfold broadcast_dim. repeat case_bool_decide; intros [= <-]; auto.
Qed.

Lemma broadcast_shape_None (s1 s2 : Shape) :
  incompatible s1 s2 → broadcast_shape s1 s2 = None.
Proof.
  unfold broadcast_shape.
  intros [Hd|[Hd|[Hd|Hd]]]; apply broadcast_dim_None in Hd; rewrite Hd;
    repeat (destruct (broadcast_dim _ _); simpl; try done).
Qed.

Lemma torch_add_not_truncated (a b r : Tensor F) :
  torch_add a b = Ok r →
  not_truncated (shape a) (shape r) ∧ not_truncated (shape b) (shape r).
Proof.
  unfold torch_add. destruct (broadcast_shape _ _) as [s|] eqn:Es; [|done].
  intros [= <-]. simpl. unfold broadcast_shape in Es.
  destruct (broadcast_dim (dimN _) _) as [dn|] eqn:En; [|done].
  destruct (broadcast_dim (dimC _) _) as [dc|] eqn:Ec; [|done].
  destruct (broadcast_dim (dimH _) _) as [dh|] eqn:Eh; [|done].
  destruct (broadcast_dim (dimW _) _) as [dw|] eqn:Ew; [|done].
  simpl in Es. injection Es as <-.
  apply broadcast_dim_not_truncated in En, Ec, Eh, Ew.
  unfold not_truncated. simpl. tauto.
Qed.

Lemma broadcast_dim_compatible (a b : nat) :
  compatible_dim a b → broadcast_dim a b = Some (broadcast_size a b).
Proof.
  unfold broadcast_dim, broadcast_size. intros [Hab|[Ha|Hb]];
    repeat case_bool_decide; (done || f_equal; lia).
Qed.

Lemma broadcast_shape_compatible (s1 s2 : Shape) :
  broadcastable s1 s2 →
  broadcast_shape s1 s2
  = Some (mkShape (broadcast_size (dimN s1) (dimN s2)) (broadcast_size (dimC s1) (dimC s2))
                  (broadcast_size (dimH s1) (dimH s2)) (broadcast_size (dimW s1) (dimW s2))).
Proof.
  intros (Hn & Hc & Hh & Hw). unfold broadcast_shape.
  by rewrite (broadcast_dim_compatible _ _ Hn), (broadcast_dim_compatible _ _ Hc),
    (broadcast_dim_compatible _ _ Hh), (broadcast_dim_compatible _ _ Hw).
Qed.

(** C8, as amended.  For every pair of tensors whose N, H or W differ, the
    channel concatenation raises and produces no tensor.  The elementwise
    add raises when in some dimension the two sizes differ and neither is 1.
    When in every dimension the sizes are equal or one of them is 1, it
    returns: the sum has in each dimension the size that is not the
    broadcast 1, and each of its elements is the sum of the elements of the
    operands at that index, an operand of size 1 along a dimension being read
    at index 0.  Whenever the add returns a tensor, each operand has in every
    dimension the size of the result or size 1, so nothing is truncated. *)
Theorem mismatch_cat_raises_add_broadcasts (a b : Tensor F) :
  NHW_differ (shape a) (shape b) →
  torch_cat [a; b] = Raise CatSizeMismatch
  ∧ (incompatible (shape a) (shape b) → torch_add a b = Raise BroadcastMismatch)
  ∧ (broadcastable (shape a) (shape b) →
     ∃ r, torch_add a b = Ok r
          ∧ shape r = mkShape (broadcast_size (dimN (shape a)) (dimN (shape b)))
                              (broadcast_size (dimC (shape a)) (dimC (shape b)))
                              (broadcast_size (dimH (shape a)) (dimH (shape b)))
                              (broadcast_size (dimW (shape a)) (dimW (shape b)))
          ∧ ∀ n c h w, in_shape (shape r) n c h w →
              tval r n c h w
              = fadd (tval a (if bool_decide (dimN (shape a) = 1) then 0 else n)
                             (if bool_decide (dimC (shape a) = 1) then 0 else c)
                             (if bool_decide (dimH (shape a) = 1) then 0 else h)
                             (if bool_decide (dimW (shape a) = 1) then 0 else w))
                     (tval b (if bool_decide (dimN (shape b) = 1) then 0 else n)
                             (if bool_decide (dimC (shape b) = 1) then 0 else c)
                             (if bool_decide (dimH (shape b) = 1) then 0 else h)
                             (if bool_decide (dimW (shape b) = 1) then 0 else w)))
  ∧ (∀ r, torch_add a b = Ok r →
          not_truncated (shape a) (shape r) ∧ not_truncated (shape b) (shape r)).
Proof.
  intros Hd. split; [|split; [|split]].
  - simpl. unfold cat2. destruct (same_NHW _ _) eqn:E; [|done].
    apply same_NHW_spec in E. unfold NHW_differ in Hd. tauto.
  - intros Hi. unfold torch_add. by rewrite broadcast_shape_None.
  - intros Hb. unfold torch_add. rewrite (broadcast_shape_compatible _ _ Hb).
    eexists. split; [done|]. split; [done|]. by intros n c h w _.
  - intros r. apply torch_add_not_truncated.
Qed.

(** C9.  For tensors [a], [b] with matching N, H and W, [torch.cat([a, b], 1)]
    returns a tensor whose channels are the channels of [a], in order,
    followed by the channels of [b], in order.  Concatenation is not
    commutative: as soon as the scalars have two distinct values, there are
    tensors [a'] and [b'], not equal to each other, for which
    [cat([a', b'])] and [cat([b', a'])] differ. *)
Theorem torch_cat_channel_order (a b : Tensor F) (u v : F) :
  same_NHW (shape a) (shape b) = true → u ≠ v →
  (∃ r, torch_cat [a; b] = Ok r
        ∧ shape r = mkShape (dimN (shape a)) (dimC (shape a) + dimC (shape b))
                            (dimH (shape a)) (dimW (shape a))
        ∧ (∀ n c h w, c < dimC (shape a) → tval r n c h w = tval a n c h w)
        ∧ (∀ n c h w, c < dimC (shape b) →
                      tval r n (dimC (shape a) + c) h w = tval b n c h w))
  ∧ (∃ a' b' : Tensor F,
        same_NHW (shape a') (shape b') = true
        ∧ ¬ tensor_eq a' b'
        ∧ ¬ result_eq (E1:=RuntimeError) (E2:=RuntimeError)
              (torch_cat [a'; b']) (torch_cat [b'; a'])).
Proof.
  intros Hs Huv. split.
  - simpl. unfold cat2. rewrite Hs. eexists. split; [done|]. split; [done|].
    simpl. split; intros n c h w Hc.
    + by rewrite (proj2 (Nat.ltb_lt _ _) Hc).
    + rewrite (proj2 (Nat.ltb_ge _ _)) by lia. f_equal. lia.
  - exists (full (mkShape 1 1 1 1) u), (full (mkShape 1 1 1 1) v).
    split; [done|]. split.
    + intros [_ Hv]. apply Huv, (Hv 0 0 0 0). unfold in_shape. simpl. lia.
    + simpl. intros [_ Hv]. apply Huv, (Hv 0 0 0 0). unfold in_shape. simpl. lia.
Qed.

End ClaimsLibrary.

Section ClaimsHeap.
Context {F : Type} {scalar : Scalar F}.

Lemma yields_unchanged (m : Heap.St nat) (h : gmap nat (Tensor F)) (x : nat)
    (tx : Tensor F) (p : result RuntimeError (Tensor F)) :
  h !! x = Some tx → Heap.yields m h h p → unchanged m h x p.
Proof.
  intros Hx. destruct p as [t|e]; simpl; [|done].
  intros (r & h' & Hm & Hr & Hsub). exists r, h'. split; [done|].
  assert (h ⊆ h') as Hh by (etrans; [|exact Hsub]; by apply insert_subseteq).
  split; [|split; [|done]].
  - eapply lookup_weaken; [|exact Hsub]. apply lookup_insert_eq.
  - rewrite Hx. by eapply lookup_weaken.
Qed.

(** C10.  For each of the three blocks and every input buffer [x], running
    [forward] on buffers, with the in-place activation overwriting its
    argument, returns what the value-level [forward] computes and leaves the
    contents of [x], and of every other buffer the caller holds, unchanged:
    the activation only ever overwrites a buffer allocated during the call.
    ([__init__] builds all three blocks with [inplace = True].) *)
Theorem forward_leaves_input_unchanged
    (rdb : ResidualDenseBlock.t F) (rrdb : ResidualResidualDenseBlock.t F)
    (rfdb : ResidualFeatureDistillationBlock.t F) (esa_call : nat → Heap.St nat)
    (h : gmap nat (Tensor F)) (x : nat) (tx : Tensor F) :
  gate_ok (ResidualFeatureDistillationBlock.esa rfdb) esa_call →
  h !! x = Some tx →
  unchanged (Heap.RDB_forward rdb x) h x (ResidualDenseBlock.forward rdb tx)
  ∧ unchanged (Heap.RRDB_forward rrdb x) h x (ResidualResidualDenseBlock.forward rrdb tx)
  ∧ unchanged (Heap.RFDB_forward rfdb esa_call x) h x
              (ResidualFeatureDistillationBlock.forward rfdb tx).
Proof.
  intros Hgate Hx. repeat split; eapply yields_unchanged; try exact Hx.
  - by apply RDB_forward_yields.
  - by apply RRDB_forward_yields.
  - by apply RFDB_forward_yields.
Qed.

End ClaimsHeap.

(** * The claims on concrete data *)

Lemma Qc_0_neq_1 : (fzero : Qc) ≠ flit 1.
Proof. intros E. apply (f_equal this) in E. vm_compute in E. discriminate. Qed.

Lemma zero_conv_zero (in_ch out_ch k s p : nat) :
  zero_conv (nn_Conv2d in_ch out_ch k s p Sample.zero).
Proof. by split. Qed.

Lemma rdb_zero_block_zero : RDB_zero Sample.rdb_zero_block.
Proof. repeat split. Qed.


Lemma gate_proper (channels : nat) (a b : Tensor Qc) :
  tensor_eq a b →
  result_eq (E1:=RuntimeError) (E2:=RuntimeError)
    (Sample.gate channels a) (Sample.gate channels b).
Proof. done. Qed.

(** A gate that returns its argument meets [gate_ok]. *)
Lemma gate_Identity_ok (channels : nat) :
  gate_ok (Sample.gate channels) Heap.Identity_call.
Proof. intros env h r t Hsub Hr Ht. by apply Identity_call_yields. Qed.

(** The library rejects an input whose padded extent is smaller than the
    kernel; this is why the results on returned values ask for a non-empty
    spatial extent. *)
Lemma Conv2d_forward_empty_extent :
  Conv2d_forward (ResidualDenseBlock.conv_1 Sample.rdb) (Sample.ones (mkShape 1 2 0 2))
  = Raise KernelTooLarge.
Proof. reflexivity. Qed.

(** The dense block on the sample image, with centre kernels: every stage
    passes its input channels on, so [out_5] is [x] and the result is
    [x + 0.2 * x]. *)
Lemma rdb_sample_run :
  (λ t, this <$> to_list t) <$> ResidualDenseBlock.forward Sample.rdb Sample.image
  = Ok ((λ q, Qred (q * (12 # 10))) <$> [0; -3; 2; -1; 1; -2; 3; 0]%Q).
Proof. vm_compute. reflexivity. Qed.

Lemma RDB_forward_is_dense_pipeline_witness :
  dimC (shape Sample.image) = 2
  ∧ result_eq (ResidualDenseBlock.forward Sample.rdb Sample.image)
              (Spec.RDB_block Sample.rdb Sample.image)
  ∧ is_ok (ResidualDenseBlock.forward Sample.rdb Sample.image) = true.
Proof.
  split; [reflexivity|].
  destruct (RDB_forward_is_dense_pipeline 2 1 Sample.rdb_centre Sample.image)
    as [Hpipeline Hreturns]; [reflexivity|].
  split; [exact Hpipeline|]. apply Hreturns; simpl; lia.
Defined.

Lemma RRDB_forward_is_residual_stack_witness :
  result_eq (ResidualResidualDenseBlock.forward Sample.rrdb Sample.image)
            (Spec.RRDB (Spec.RDB_block (ResidualResidualDenseBlock.rdb_1 Sample.rrdb))
                       (Spec.RDB_block (ResidualResidualDenseBlock.rdb_2 Sample.rrdb))
                       (Spec.RDB_block (ResidualResidualDenseBlock.rdb_3 Sample.rrdb))
                       Sample.image)
  ∧ is_ok (ResidualResidualDenseBlock.forward Sample.rrdb Sample.image) = true.
Proof.
  destruct (RRDB_forward_is_residual_stack 2 1 Sample.rrdb_centre Sample.image)
    as [Hpipeline Hreturns].
  split; [exact Hpipeline|]. apply Hreturns; simpl; (lia || reflexivity).
Defined.







Lemma RDB_forward_preserves_shape_witness :
  shape Sample.image = mkShape 1 2 2 2 ∧ 1 ≤ 2 ∧ 1 ≤ 2
  ∧ ((∃ y, ResidualDenseBlock.forward Sample.rdb Sample.image = Ok y
           ∧ shape y = mkShape 1 2 2 2)
     ∧ Forall (λ m, stride m = 1 ∧ padding m = (kernel_size m - 1) / 2)
              [ResidualDenseBlock.conv_1 Sample.rdb; ResidualDenseBlock.conv_2 Sample.rdb;
               ResidualDenseBlock.conv_3 Sample.rdb; ResidualDenseBlock.conv_4 Sample.rdb;
               ResidualDenseBlock.conv_5 Sample.rdb]
     ∧ out_channels (ResidualDenseBlock.conv_5 Sample.rdb) = 2).
Proof.
  split; [reflexivity|]. do 2 (split; [lia|]).
  apply (RDB_forward_preserves_shape 2 1 Sample.rdb_centre Sample.image 1 2 2);
    [lia|lia|reflexivity|lia..].
Defined.

Lemma RFDB_forward_is_distillation_pipeline_witness :
  (∀ a b, tensor_eq a b →
          result_eq (ResidualFeatureDistillationBlock.esa Sample.rfdb a)
                    (ResidualFeatureDistillationBlock.esa Sample.rfdb b))
  ∧ dimC (shape Sample.image) = 2
  ∧ 1 ≤ dimH (shape Sample.image) ∧ 1 ≤ dimW (shape Sample.image)
  ∧ (result_eq (ResidualFeatureDistillationBlock.forward Sample.rfdb Sample.image)
               (Spec.RFDB_block Sample.rfdb Sample.image)
     ∧ ∃ t fused,
         ResidualFeatureDistillationBlock.forward_cat Sample.rfdb Sample.image = Ok t
         ∧ Conv2d_forward (ResidualFeatureDistillationBlock.conv_5 Sample.rfdb) t = Ok fused
         ∧ shape fused = shape Sample.image
         ∧ ResidualFeatureDistillationBlock.forward Sample.rfdb Sample.image
           = ResidualFeatureDistillationBlock.esa Sample.rfdb fused).
Proof.
  split; [exact (gate_proper 2)|]. do 3 (split; [simpl; lia|]).
  apply (RFDB_forward_is_distillation_pipeline Sample.gate 2 Sample.rfdb_centre
           Sample.image); [exact (gate_proper 2)|lia|simpl; lia..].
Defined.

Lemma RFDB_64_channel_counts_witness :
  dimC (shape (Sample.ones (mkShape 1 64 1 1))) = 64
  ∧ 1 ≤ dimH (shape (Sample.ones (mkShape 1 64 1 1)))
  ∧ 1 ≤ dimW (shape (Sample.ones (mkShape 1 64 1 1)))
  ∧ (ResidualFeatureDistillationBlock.distilled_channels
       (ResidualFeatureDistillationBlock.init Sample.gate 64 Sample.rfdb_centre) = 32
     ∧ in_channels (ResidualFeatureDistillationBlock.conv_5
                      (ResidualFeatureDistillationBlock.init Sample.gate 64
                         Sample.rfdb_centre)) = 128
     ∧ ∃ t, ResidualFeatureDistillationBlock.forward_cat
              (ResidualFeatureDistillationBlock.init Sample.gate 64 Sample.rfdb_centre)
              (Sample.ones (mkShape 1 64 1 1)) = Ok t
            ∧ dimC (shape t)
              = 4 * ResidualFeatureDistillationBlock.distilled_channels
                      (ResidualFeatureDistillationBlock.init Sample.gate 64
                         Sample.rfdb_centre)
            ∧ dimC (shape t) = 128).
Proof.
  split; [reflexivity|]. do 2 (split; [simpl; lia|]).
  apply (RFDB_64_channel_counts Sample.gate Sample.rfdb_centre
           (Sample.ones (mkShape 1 64 1 1))); [reflexivity|simpl; lia..].
Defined.

(** C8 fails as stated: the batch sizes 1 and 3 differ, and [torch.add]
    returns a tensor of batch size 3 in which the single batch element of the
    first operand is used three times. *)
Lemma torch_add_broadcasts_mismatch :
  NHW_differ (shape (Sample.ones (mkShape 1 1 2 2))) (shape (Sample.ones (mkShape 3 1 2 2)))
  ∧ ∃ r, torch_add (Sample.ones (mkShape 1 1 2 2)) (Sample.ones (mkShape 3 1 2 2)) = Ok r
         ∧ shape r = mkShape 3 1 2 2
         ∧ this <$> to_list r = [2; 2; 2; 2; 2; 2; 2; 2; 2; 2; 2; 2]%Q.
Proof.
  split; [left; simpl; lia|].
  eexists. split; [reflexivity|]. split; [reflexivity|]. vm_compute. reflexivity.
Qed.

Lemma mismatch_cat_raises_add_broadcasts_witness :
  NHW_differ (shape (Sample.ones (mkShape 2 1 1 2))) (shape Sample.image)
  ∧ torch_cat [Sample.ones (mkShape 2 1 1 2); Sample.image] = Raise CatSizeMismatch
  ∧ ∃ r, torch_add (Sample.ones (mkShape 2 1 1 2)) Sample.image = Ok r
         ∧ shape r = mkShape 2 2 2 2
         ∧ ∀ n c h w, in_shape (shape r) n c h w →
             tval r n c h w
             = fadd (tval (Sample.ones (mkShape 2 1 1 2)) n 0 0 w)
                    (tval Sample.image 0 c h w).
Proof.
  assert (NHW_differ (shape (Sample.ones (mkShape 2 1 1 2))) (shape Sample.image))
    as Hd by (left; simpl; lia).
  split; [exact Hd|].
  destruct (mismatch_cat_raises_add_broadcasts
              (Sample.ones (mkShape 2 1 1 2)) Sample.image Hd)
    as (Hcat & _ & Hadd & _).
  split; [exact Hcat|]. apply Hadd.
  unfold broadcastable, compatible_dim. simpl. lia.
Defined.

Lemma torch_cat_channel_order_witness :
  same_NHW (shape Sample.image) (shape (Sample.ones (mkShape 1 3 2 2))) = true
  ∧ (fzero : Qc) ≠ flit 1
  ∧ ((∃ r, torch_cat [Sample.image; Sample.ones (mkShape 1 3 2 2)] = Ok r
           ∧ shape r = mkShape 1 (2 + 3) 2 2
           ∧ (∀ n c h w, c < 2 → tval r n c h w = tval Sample.image n c h w)
           ∧ (∀ n c h w, c < 3 →
                tval r n (2 + c) h w = tval (Sample.ones (mkShape 1 3 2 2)) n c h w))
     ∧ (∃ a' b' : Tensor Qc,
           same_NHW (shape a') (shape b') = true
           ∧ ¬ tensor_eq a' b'
           ∧ ¬ result_eq (E1:=RuntimeError) (E2:=RuntimeError)
                 (torch_cat [a'; b']) (torch_cat [b'; a']))).
Proof.
  split; [reflexivity|]. split; [exact Qc_0_neq_1|].
  apply (torch_cat_channel_order Sample.image (Sample.ones (mkShape 1 3 2 2))
           fzero (flit 1)); [reflexivity|exact Qc_0_neq_1].
Defined.

Lemma forward_leaves_input_unchanged_witness :
  gate_ok (ResidualFeatureDistillationBlock.esa Sample.rfdb) Heap.Identity_call
  ∧ Sample.heap !! 0 = Some Sample.image
  ∧ (unchanged (Heap.RDB_forward Sample.rdb 0) Sample.heap 0
               (ResidualDenseBlock.forward Sample.rdb Sample.image)
     ∧ unchanged (Heap.RRDB_forward Sample.rrdb 0) Sample.heap 0
                 (ResidualResidualDenseBlock.forward Sample.rrdb Sample.image)
     ∧ unchanged (Heap.RFDB_forward Sample.rfdb Heap.Identity_call 0) Sample.heap 0
                 (ResidualFeatureDistillationBlock.forward Sample.rfdb Sample.image)).
Proof.
  split; [exact (gate_Identity_ok 2)|]. split; [reflexivity|].
  apply (forward_leaves_input_unchanged Sample.rdb Sample.rrdb Sample.rfdb
           Heap.Identity_call Sample.heap 0 Sample.image);
    [exact (gate_Identity_ok 2)|reflexivity].
Defined.

(** * Further properties *)

(** ** When [forward] returns *)
Section Returns.
Context {F : Type} {scalar : Scalar F}.

(** How a convolution raises. *)
Lemma Conv2d_forward_no_output (m : Conv2d F) (x : Tensor F) :
  stride m ≠ 0 → out_channels m = 0 → Conv2d_forward m x = Raise NoOutputChannels.
Proof.
  intros Hs Ho. unfold Conv2d_forward.
  rewrite (bool_decide_eq_false_2 (stride m = 0)) by done.
  by rewrite (bool_decide_eq_true_2 (out_channels m = 0)).
Qed.

Lemma Conv2d_forward_channel_mismatch (m : Conv2d F) (x : Tensor F) :
  stride m ≠ 0 → 1 ≤ out_channels m → dimC (shape x) ≠ in_channels m →
  Conv2d_forward m x = Raise ChannelMismatch.
Proof.
  intros Hs Ho HC. unfold Conv2d_forward.
  rewrite (bool_decide_eq_false_2 (stride m = 0)) by done.
  rewrite (bool_decide_eq_false_2 (out_channels m = 0)) by lia.
  by rewrite (bool_decide_eq_false_2 (dimC (shape x) = in_channels m)).
Qed.

Lemma Conv2d_forward_kernel_too_large (m : Conv2d F) (x : Tensor F) :
  stride m ≠ 0 → 1 ≤ out_channels m → dimC (shape x) = in_channels m →
  dimH (shape x) + 2 * padding m < kernel_size m
  ∨ dimW (shape x) + 2 * padding m < kernel_size m →
  Conv2d_forward m x = Raise KernelTooLarge.
Proof.
  intros Hs Ho HC HE. unfold Conv2d_forward.
  rewrite (bool_decide_eq_false_2 (stride m = 0)) by done.
  rewrite (bool_decide_eq_false_2 (out_channels m = 0)) by lia.
  rewrite (bool_decide_eq_true_2 (dimC (shape x) = in_channels m)) by done.
  cbn [negb].
  destruct HE as [HE|HE]; apply Nat.ltb_lt in HE; rewrite HE; [done|].
  by rewrite orb_true_r.
Qed.

(** X1.  [ResidualDenseBlock.forward] returns exactly when the block has at
    least one channel and one growth channel and the input has
    [C == channels] and a non-empty spatial extent.  Without growth channels
    the first convolution has no output channel and raises; with them, on
    another channel count it raises the channel mismatch, and on an empty
    extent the kernel-size error. *)
Theorem RDB_forward_returns_iff (channels growth_channels : nat)
    (sd : ResidualDenseBlock.state_dict F) (x : Tensor F) :
  let self := ResidualDenseBlock.init channels growth_channels sd in
  (is_ok (ResidualDenseBlock.forward self x) = true
   ↔ 1 ≤ channels ∧ 1 ≤ growth_channels
     ∧ dimC (shape x) = channels ∧ 1 ≤ dimH (shape x) ∧ 1 ≤ dimW (shape x))
  ∧ (growth_channels = 0 →
     ResidualDenseBlock.forward self x = Raise NoOutputChannels)
  ∧ (1 ≤ growth_channels → dimC (shape x) ≠ channels →
     ResidualDenseBlock.forward self x = Raise ChannelMismatch)
  ∧ (1 ≤ growth_channels → dimC (shape x) = channels →
     dimH (shape x) = 0 ∨ dimW (shape x) = 0 →
     ResidualDenseBlock.forward self x = Raise KernelTooLarge).
Proof.
  intros self. split; [split|split; [|split]].
  - destruct (ResidualDenseBlock.forward self x) as [y|e] eqn:E; [|done].
    intros _. by apply RDB_forward_Ok_inv in E.
  - intros (Hch & Hg & HC & HH & HW).
    destruct (forward_returns channels growth_channels sd x Hch Hg HC HH HW)
      as (_ & y & Ey & _).
    unfold self. by rewrite Ey.
  - intros Hg. unfold ResidualDenseBlock.forward.
    by rewrite Conv2d_forward_no_output.
  - intros Hg HC. unfold ResidualDenseBlock.forward.
    rewrite Conv2d_forward_channel_mismatch; [done|done|done|simpl; lia].
  - intros Hg HC HE. unfold ResidualDenseBlock.forward.
    rewrite Conv2d_forward_kernel_too_large; [done|done|done|simpl; lia|simpl; lia].
Qed.

(** X2.  [ResidualResidualDenseBlock.forward] returns exactly when the block
    has at least one channel and one growth channel and the input has
    [C == channels] and a non-empty spatial extent, and what it returns has
    the shape of its input. *)
Theorem RRDB_forward_returns_iff (channels growth_channels : nat)
    (sd : ResidualResidualDenseBlock.state_dict F) (x : Tensor F) :
  let self := ResidualResidualDenseBlock.init channels growth_channels sd in
  (is_ok (ResidualResidualDenseBlock.forward self x) = true
   ↔ 1 ≤ channels ∧ 1 ≤ growth_channels
     ∧ dimC (shape x) = channels ∧ 1 ≤ dimH (shape x) ∧ 1 ≤ dimW (shape x))
  ∧ (∀ y, ResidualResidualDenseBlock.forward self x = Ok y → shape y = shape x).
Proof.
  intros self.
  assert (∀ y, ResidualResidualDenseBlock.forward self x = Ok y →
               1 ≤ channels ∧ 1 ≤ growth_channels
               ∧ dimC (shape x) = channels ∧ 1 ≤ dimH (shape x) ∧ 1 ≤ dimW (shape x))
    as Hinv.
  { intros y Hy. unfold ResidualResidualDenseBlock.forward in Hy.
    apply bind_Ok_inv in Hy as (o1 & E1 & _).
    by apply RDB_forward_Ok_inv in E1. }
  split; [split|].
  - destruct (ResidualResidualDenseBlock.forward self x) as [y|e] eqn:E; [|done].
    intros _. by eapply Hinv.
  - intros (Hch & Hg & HC & HH & HW).
    destruct (RRDB_forward_returns channels growth_channels sd x Hch Hg HC HH HW)
      as (y & Ey & _).
    unfold self. by rewrite Ey.
  - intros y Hy. destruct (Hinv y Hy) as (Hch & Hg & HC & HH & HW).
    destruct (RRDB_forward_returns channels growth_channels sd x Hch Hg HC HH HW)
      as (y' & Ey & Sy).
    unfold self in Hy. rewrite Hy in Ey. by injection Ey as <-.
Qed.

End Returns.

Section ReturnsRFDB.
Context {F : Type} {scalar : Scalar F}.
Variable EnhancedSpatialAttention : nat → Tensor F → result RuntimeError (Tensor F).

(** X3.  In [ResidualFeatureDistillationBlock.forward], the eight
    convolutions, the three additions and the concatenation go through
    exactly when the block has at least two channels and the input has
    [C == channels] and a non-empty spatial extent; the fused tensor then has
    the shape of the input, whatever the parity of [channels], and the
    outcome of [forward] is that of the gate.  With fewer than two channels
    [distilled_channels] is zero and the first convolution raises; with at
    least two, on another channel count [forward] raises the channel
    mismatch.  In both cases the gate is not reached. *)
Theorem RFDB_forward_returns_iff (channels : nat)
    (sd : ResidualFeatureDistillationBlock.state_dict F) (x : Tensor F) :
  let self := ResidualFeatureDistillationBlock.init EnhancedSpatialAttention channels sd in
  (is_ok (ResidualFeatureDistillationBlock.forward_cat self x
            ≫= Conv2d_forward (ResidualFeatureDistillationBlock.conv_5 self)) = true
   ↔ 2 ≤ channels
     ∧ dimC (shape x) = channels ∧ 1 ≤ dimH (shape x) ∧ 1 ≤ dimW (shape x))
  ∧ (∀ fused, ResidualFeatureDistillationBlock.forward_cat self x
                ≫= Conv2d_forward (ResidualFeatureDistillationBlock.conv_5 self) = Ok fused →
              shape fused = shape x
              ∧ ResidualFeatureDistillationBlock.forward self x
                = EnhancedSpatialAttention channels fused)
  ∧ (channels ≤ 1 →
     ResidualFeatureDistillationBlock.forward self x = Raise NoOutputChannels)
  ∧ (2 ≤ channels → dimC (shape x) ≠ channels →
     ResidualFeatureDistillationBlock.forward self x = Raise ChannelMismatch).
Proof.
  intros self.
  assert (2 ≤ channels →
          dimC (shape x) = channels → 1 ≤ dimH (shape x) → 1 ≤ dimW (shape x) →
          ∃ fused, ResidualFeatureDistillationBlock.forward_cat self x
                     ≫= Conv2d_forward (ResidualFeatureDistillationBlock.conv_5 self)
                   = Ok fused ∧ shape fused = shape x) as Hret.
  { intros Hch HC HH HW.
    destruct (forward_cat_returns EnhancedSpatialAttention channels sd x Hch HC HH HW)
      as (t & Et & St).
    assert (1 ≤ channels / 2) as Hd by (apply Nat.div_str_pos; lia).
    assert (Conv2d_forward (ResidualFeatureDistillationBlock.conv_5 self) t
            = Ok (conv2d_out (ResidualFeatureDistillationBlock.conv_5 self) t)) as E5.
    { apply same_size_success;
        [by split|simpl; lia|change (1 ≤ channels / 2 * 4); lia
        |rewrite St; simpl; lia|by rewrite St..]. }
    eexists. fold self in Et. rewrite Et, bind_Ok. split; [exact E5|].
    apply (same_size_shape (ResidualFeatureDistillationBlock.conv_5 self)) in E5
      as (-> & _); [|by split].
    rewrite St. simpl. rewrite <- HC. by destruct (shape x). }
  assert (∀ fused, ResidualFeatureDistillationBlock.forward_cat self x
                     ≫= Conv2d_forward (ResidualFeatureDistillationBlock.conv_5 self)
                   = Ok fused →
                   2 ≤ channels
                   ∧ dimC (shape x) = channels ∧ 1 ≤ dimH (shape x) ∧ 1 ≤ dimW (shape x))
    as Hinv.
  { intros fused (t & Et & _)%bind_Ok_inv.
    unfold ResidualFeatureDistillationBlock.forward_cat in Et.
    apply bind_Ok_inv in Et as (d1 & E1 & _).
    pose proof (Conv2d_forward_Ok_out _ _ _ E1) as Hd.
    change (1 ≤ channels / 2) in Hd.
    apply same_size_shape in E1; [|by split]. simpl in E1.
    split; [|tauto].
    destruct (decide (2 ≤ channels)) as [|Hn]; [done|].
    rewrite Nat.div_small in Hd; lia. }
  split; [split|split; [|split]].
  - destruct (_ ≫= _) as [fused|e] eqn:E; [|done]. intros _. by eapply Hinv.
  - intros (Hch & HC & HH & HW). destruct (Hret Hch HC HH HW) as (fused & -> & _). done.
  - intros fused Hf. destruct (Hinv fused Hf) as (Hch & HC & HH & HW).
    destruct (Hret Hch HC HH HW) as (fused' & Ef & Sf).
    rewrite Hf in Ef. injection Ef as <-. split; [done|].
    unfold ResidualFeatureDistillationBlock.forward.
    rewrite <- bind_assoc, Hf. done.
  - intros Hch.
    unfold ResidualFeatureDistillationBlock.forward,
      ResidualFeatureDistillationBlock.forward_cat.
    rewrite (Conv2d_forward_no_output
               (ResidualFeatureDistillationBlock.conv_1_distilled self) x); [done|done|].
    change (channels / 2 = 0). apply Nat.div_small. lia.
  - intros Hch HC.
    assert (1 ≤ channels / 2) as Hd by (apply Nat.div_str_pos; lia).
    unfold ResidualFeatureDistillationBlock.forward,
      ResidualFeatureDistillationBlock.forward_cat.
    rewrite (Conv2d_forward_channel_mismatch
               (ResidualFeatureDistillationBlock.conv_1_distilled self) x);
      [done|done|exact Hd|done].
Qed.

End ReturnsRFDB.

(** ** Zero last convolution *)
Section ZeroLast.
Context {F : Type} {scalar : Scalar F}.

(** X4.  In exact arithmetic, a dense block (with at least one channel and
    one growth channel) whose fifth convolution has zero weights and zero
    bias returns its input, whatever the other four convolutions hold: they
    only reach the output through the fifth. *)
Theorem RDB_zero_last_conv_identity `{!ScalarLaws F} (channels growth_channels : nat)
    (sd : ResidualDenseBlock.state_dict F) (x : Tensor F) :
  let self := ResidualDenseBlock.init channels growth_channels sd in
  zero_conv (ResidualDenseBlock.conv_5 self) →
  1 ≤ channels → 1 ≤ growth_channels →
  dimC (shape x) = channels → 1 ≤ dimH (shape x) → 1 ≤ dimW (shape x) →
  ∃ y, ResidualDenseBlock.forward self x = Ok y ∧ tensor_eq y x.
Proof. intros self. apply RDB_zero_conv_5. Qed.

End ZeroLast.

(** ** Buffers: what [forward] returns *)
Section HeapExtras.
Context {F : Type} {scalar : Scalar F}.

Lemma yields_fresh (m : Heap.St nat) (h h' : gmap nat (Tensor F)) (r : nat)
    (p : result RuntimeError (Tensor F)) :
  Heap.yields m h h p → m h = Ok (r, h') →
  h !! r = None ∧ h ⊆ h' ∧ ∃ t, p = Ok t ∧ h' !! r = Some t.
Proof.
  destruct p as [t|e]; simpl; [|congruence].
  intros (r0 & h0 & Hm & Hr & Hsub) Hm'. rewrite Hm in Hm'. injection Hm' as <- <-.
  split; [done|]. split.
  - etrans; [|exact Hsub]. by apply insert_subseteq.
  - exists t. split; [done|]. eapply lookup_weaken; [|exact Hsub]. apply lookup_insert_eq.
Qed.

(** X5.  The buffer that [ResidualDenseBlock.forward] or
    [ResidualResidualDenseBlock.forward] returns is a new one: it is none of
    the buffers the caller held, so it is not the input buffer, and writing
    to the output later cannot change the input. *)
Theorem forward_returns_new_buffer
    (rdb : ResidualDenseBlock.t F) (rrdb : ResidualResidualDenseBlock.t F)
    (h : gmap nat (Tensor F)) (x : nat) (tx : Tensor F) :
  h !! x = Some tx →
  (∀ r h', Heap.RDB_forward rdb x h = Ok (r, h') → h !! r = None ∧ r ≠ x)
  ∧ (∀ r h', Heap.RRDB_forward rrdb x h = Ok (r, h') → h !! r = None ∧ r ≠ x).
Proof.
  intros Hx. split; intros r h' Hrun.
  - destruct (yields_fresh _ h h' r _ (RDB_forward_yields rdb x tx h h (reflexivity _) Hx)
                Hrun) as (Hr & _).
    split; [done|]. congruence.
  - destruct (yields_fresh _ h h' r _ (RRDB_forward_yields rrdb x tx h h (reflexivity _) Hx)
                Hrun) as (Hr & _).
    split; [done|]. congruence.
Qed.

Lemma RDB_forward_same_but_inplace (self self' : ResidualDenseBlock.t F) (x : Tensor F) :
  RDB_same_but_inplace self self' →
  ResidualDenseBlock.forward self x = ResidualDenseBlock.forward self' x.
Proof.
  destruct self as [c1 c2 c3 c4 c5 [s i]], self' as [c1' c2' c3' c4' c5' [s' i']].
  unfold RDB_same_but_inplace. simpl. intros (-> & -> & -> & -> & -> & ->). done.
Qed.

Lemma yields_same_outcome (m1 m2 : Heap.St nat) (h : gmap nat (Tensor F))
    (p : result RuntimeError (Tensor F)) :
  Heap.yields m1 h h p → Heap.yields m2 h h p → same_outcome (m1 h) (m2 h).
Proof.
  destruct p as [t|e]; simpl.
  - intros (r1 & h1 & -> & _ & S1) (r2 & h2 & -> & _ & S2). simpl.
    assert (h1 !! r1 = Some t) as ->
      by (eapply lookup_weaken; [|exact S1]; apply lookup_insert_eq).
    assert (h2 !! r2 = Some t) as ->
      by (eapply lookup_weaken; [|exact S2]; apply lookup_insert_eq).
    split; [by eexists|done].
  - by intros -> ->.
Qed.

(** X6.  The [inplace] flag of the activation is a memory optimisation only:
    two dense blocks that differ at most in that flag, run on the same
    buffers, both raise or both return a buffer holding the same tensor. *)
Theorem RDB_inplace_does_not_change_result (self self' : ResidualDenseBlock.t F)
    (h : gmap nat (Tensor F)) (x : nat) (tx : Tensor F) :
  RDB_same_but_inplace self self' → h !! x = Some tx →
  same_outcome (Heap.RDB_forward self x h) (Heap.RDB_forward self' x h).
Proof.
  intros Hsame Hx.
  apply (yields_same_outcome _ _ h (ResidualDenseBlock.forward self tx)).
  - by apply RDB_forward_yields.
  - rewrite (RDB_forward_same_but_inplace self self' tx Hsame).
    by apply RDB_forward_yields.
Qed.

End HeapExtras.

(** ** The samples of a batch are processed independently *)
Section Batch.
Context {F : Type} {scalar : Scalar F}.
Variables N n : nat.
Hypothesis Hn : n < N.

Local Abbreviation sample := (sample_of N n).

Lemma result_rel_bind (R R' : Tensor F → Tensor F → Prop)
    (r1 r2 : result RuntimeError (Tensor F))
    (f1 f2 : Tensor F → result RuntimeError (Tensor F)) :
  result_rel R r1 r2 →
  (∀ a b, R a b → result_rel R' (f1 a) (f2 b)) →
  result_rel R' (r1 ≫= f1) (r2 ≫= f2).
Proof. destruct r1, r2; simpl; try done. intros Hab Hf. by apply Hf. Qed.

Lemma sample_shape (a b : Tensor F) :
  sample a b →
  shape b = mkShape 1 (dimC (shape a)) (dimH (shape a)) (dimW (shape a))
  ∧ ∀ c h w, c < dimC (shape a) → h < dimH (shape a) → w < dimW (shape a) →
             tval b 0 c h w = tval a n c h w.
Proof.
  intros (_ & Hs & Hv). split; [done|]. intros c h w Hc Hh Hw.
  apply (Hv 0 c h w). rewrite Hs. unfold in_shape. simpl. lia.
Qed.

Lemma sample_intro (a b : Tensor F) :
  dimN (shape a) = N →
  shape b = mkShape 1 (dimC (shape a)) (dimH (shape a)) (dimW (shape a)) →
  (∀ c h w, c < dimC (shape a) → h < dimH (shape a) → w < dimW (shape a) →
            tval b 0 c h w = tval a n c h w) →
  sample a b.
Proof.
  intros HN Hs Hv. split; [done|]. split; [done|].
  intros n0 c h w (Hn0 & Hc & Hh & Hw). rewrite Hs in *. simpl in *.
  assert (n0 = 0) as -> by lia. by apply Hv.
Qed.

Lemma Conv2d_forward_sample (m : Conv2d F) (a b : Tensor F) :
  sample a b → result_rel sample (Conv2d_forward m a) (Conv2d_forward m b).
Proof.
  intros Hab. pose proof Hab as (HN & _). apply sample_shape in Hab as (Hs & Hv).
  unfold Conv2d_forward.
  case_bool_decide; [done|]. case_bool_decide; [done|].
  assert ((bool_decide (dimN (shape b) = 0) || bool_decide (dimC (shape b) = 0))
          && negb (bool_decide (numel (shape (conv2d_out m b)) = 0))
          = (bool_decide (dimN (shape a) = 0) || bool_decide (dimC (shape a) = 0))
            && negb (bool_decide (numel (shape (conv2d_out m a)) = 0))) as ->.
  { rewrite (bool_decide_eq_false_2 (dimN (shape a) = 0)) by lia.
    rewrite (bool_decide_eq_false_2 (dimN (shape b) = 0)) by (rewrite Hs; simpl; lia).
    rewrite Hs. cbn [dimC orb]. f_equal. f_equal. apply bool_decide_ext.
    unfold numel. cbn [shape conv2d_out dimN dimC dimH dimW]. rewrite Hs, HN.
    cbn [dimN dimH dimW]. nia. }
  rewrite Hs. cbn [dimC dimH dimW].
  case_bool_decide; cbn [negb]; [|done].
  destruct ((_ <? _) || (_ <? _)); [done|].
  destruct (_ && _); [done|]. simpl.
  apply sample_intro; [done|simpl; by rewrite Hs|].
  intros oc y xx _ _ _. simpl. f_equal.
  apply fsum_ext. intros ic Hic. apply fsum_ext. intros ky _. apply fsum_ext.
  intros kx _. f_equal. unfold padded. rewrite Hs. simpl.
  destruct (_ && _) eqn:E; [|done].
  repeat (apply andb_prop in E as [E ?]).
  repeat match goal with
         | H : (_ <=? _) = true |- _ => apply Nat.leb_le in H
         | H : (_ <? _) = true |- _ => apply Nat.ltb_lt in H
         end.
  apply Hv; lia.
Qed.

Lemma LeakyReLU_forward_sample (m : LeakyReLU F) (a b : Tensor F) :
  sample a b → sample (LeakyReLU_forward m a) (LeakyReLU_forward m b).
Proof.
  intros Hab. pose proof Hab as (HN & _). apply sample_shape in Hab as (Hs & Hv).
  apply sample_intro; [done|done|].
  intros c h w Hc Hh Hw. simpl. f_equal. by apply Hv.
Qed.

Lemma torch_mul_sample (k : F) (a b : Tensor F) :
  sample a b → sample (torch_mul a k) (torch_mul b k).
Proof.
  intros Hab. pose proof Hab as (HN & _). apply sample_shape in Hab as (Hs & Hv).
  apply sample_intro; [done|done|].
  intros c h w Hc Hh Hw. simpl. f_equal. by apply Hv.
Qed.

Lemma cat2_sample (a1 a2 b1 b2 : Tensor F) :
  sample a1 b1 → sample a2 b2 → result_rel sample (cat2 a1 a2) (cat2 b1 b2).
Proof.
  intros H1 H2. pose proof H1 as (HN1 & _). pose proof H2 as (HN2 & _).
  apply sample_shape in H1 as (Hs1 & Hv1). apply sample_shape in H2 as (Hs2 & Hv2).
  unfold cat2. rewrite Hs1, Hs2. unfold same_NHW. simpl.
  rewrite HN1, HN2. rewrite !(bool_decide_eq_true_2 (_ = _) eq_refl). simpl.
  destruct (_ && _) eqn:E; [|done]. simpl.
  apply andb_prop in E as [EH%bool_decide_eq_true EW%bool_decide_eq_true].
  apply sample_intro; [done|done|]. simpl.
  intros c h w Hc Hh Hw. destruct (c <? _) eqn:Ec.
  - apply Nat.ltb_lt in Ec. by apply Hv1.
  - apply Nat.ltb_ge in Ec. apply Hv2; lia.
Qed.

Lemma foldl_cat_sample (r r' : result RuntimeError (Tensor F)) (ts ts' : list (Tensor F)) :
  result_rel sample r r' → Forall2 sample ts ts' →
  result_rel sample (foldl (λ acc u, a ← acc; cat2 a u) r ts)
                    (foldl (λ acc u, a ← acc; cat2 a u) r' ts').
Proof.
  intros Hr Hts. revert r r' Hr.
  induction Hts as [|u u' ts ts' Hu _ IH]; intros r r' Hr; [done|].
  simpl. apply IH. apply (result_rel_bind sample); [done|].
  intros a b Hab. by apply cat2_sample.
Qed.

Lemma torch_cat_sample (ts ts' : list (Tensor F)) :
  Forall2 sample ts ts' → result_rel sample (torch_cat ts) (torch_cat ts').
Proof.
  intros [|t t' rest rest' Ht Hrest]; [done|].
  simpl. by apply foldl_cat_sample.
Qed.

Lemma torch_add_sample (a1 a2 b1 b2 : Tensor F) :
  sample a1 b1 → sample a2 b2 → result_rel sample (torch_add a1 a2) (torch_add b1 b2).
Proof.
  intros H1 H2. pose proof H1 as (HN1 & _). pose proof H2 as (HN2 & _).
  apply sample_shape in H1 as (Hs1 & Hv1). apply sample_shape in H2 as (Hs2 & Hv2).
  unfold torch_add.
  destruct (broadcast_shape (shape a1) (shape a2)) as [s|] eqn:Es.
  - assert (broadcast_shape (shape b1) (shape b2)
            = Some (mkShape 1 (dimC s) (dimH s) (dimW s)) ∧ dimN s = N) as [Eb HNs].
    { unfold broadcast_shape in *. rewrite Hs1, Hs2. simpl.
      rewrite HN1, HN2, broadcast_dim_same in Es. simpl in Es.
      rewrite ?broadcast_dim_same. simpl.
      destruct (broadcast_dim (dimC _) _); [|done]. simpl in *.
      destruct (broadcast_dim (dimH _) _); [|done]. simpl in *.
      destruct (broadcast_dim (dimW _) _); [|done]. simpl in *.
      by injection Es as <-. }
    rewrite Eb. apply sample_intro; [done|done|]. simpl.
    intros c h w Hc Hh Hw.
    assert (in_shape s n c h w) as Hin by (unfold in_shape; lia).
    destruct (broadcast_shape_Some _ _ _ _ _ _ _ Es Hin)
      as ((_ & ? & ? & ?) & (_ & ? & ? & ?)).
    unfold expand. rewrite Hs1, Hs2. simpl.
    rewrite HN1, HN2, !(bidx_in_range N n) by done.
    change (bidx 1 0) with 0. f_equal; [by apply Hv1|by apply Hv2].
  - assert (broadcast_shape (shape b1) (shape b2) = None) as ->; [|done].
    unfold broadcast_shape in *. rewrite Hs1, Hs2. simpl.
    rewrite HN1, HN2, broadcast_dim_same in Es. simpl in Es.
    rewrite ?broadcast_dim_same. simpl.
    destruct (broadcast_dim (dimC _) _); [|done]. simpl in *.
    destruct (broadcast_dim (dimH _) _); [|done]. simpl in *.
    destruct (broadcast_dim (dimW _) _); [|done]. simpl in *. done.
Qed.

Lemma RDB_forward_sample (self : ResidualDenseBlock.t F) (a b : Tensor F) :
  sample a b →
  result_rel sample (ResidualDenseBlock.forward self a) (ResidualDenseBlock.forward self b).
Proof.
  intros Hab. unfold ResidualDenseBlock.forward.
  assert (∀ m ts ts', Forall2 sample ts ts' →
            result_rel sample (torch_cat ts ≫= Conv2d_forward m)
                              (torch_cat ts' ≫= Conv2d_forward m)) as Hstage.
  { intros m ts ts' Hts. apply (result_rel_bind sample); [by apply torch_cat_sample|].
    intros ? ? ?. by apply Conv2d_forward_sample. }
  pose proof (LeakyReLU_forward_sample (ResidualDenseBlock.leaky_relu self)) as HL.
  rewrite !bind_fmap.
  apply (result_rel_bind sample); [by apply Conv2d_forward_sample|].
  intros c1 c1' Hc1%HL.
  rewrite !bind_fmap. apply (result_rel_bind sample); [apply Hstage; solve_Forall2|].
  intros c2 c2' Hc2%HL.
  rewrite !bind_fmap. apply (result_rel_bind sample); [apply Hstage; solve_Forall2|].
  intros c3 c3' Hc3%HL.
  rewrite !bind_fmap. apply (result_rel_bind sample); [apply Hstage; solve_Forall2|].
  intros c4 c4' Hc4%HL.
  rewrite !bind_fmap. apply (result_rel_bind sample); [apply Hstage; solve_Forall2|].
  intros c5 c5' Hc5. unfold Identity_forward.
  apply torch_add_sample; [by apply torch_mul_sample|done].
Qed.

Lemma RRDB_forward_sample (self : ResidualResidualDenseBlock.t F) (a b : Tensor F) :
  sample a b →
  result_rel sample (ResidualResidualDenseBlock.forward self a)
                    (ResidualResidualDenseBlock.forward self b).
Proof.
  intros Hab. unfold ResidualResidualDenseBlock.forward.
  apply (result_rel_bind sample); [by apply RDB_forward_sample|]. intros o1 o1' H1.
  apply (result_rel_bind sample); [by apply RDB_forward_sample|]. intros o2 o2' H2.
  apply (result_rel_bind sample); [by apply RDB_forward_sample|]. intros o3 o3' H3.
  apply torch_add_sample; [by apply torch_mul_sample|done].
Qed.

Lemma RFDB_fused_sample (self : ResidualFeatureDistillationBlock.t F) (a b : Tensor F) :
  sample a b →
  result_rel sample
    (ResidualFeatureDistillationBlock.forward_cat self a
       ≫= Conv2d_forward (ResidualFeatureDistillationBlock.conv_5 self))
    (ResidualFeatureDistillationBlock.forward_cat self b
       ≫= Conv2d_forward (ResidualFeatureDistillationBlock.conv_5 self)).
Proof.
  intros Hab. unfold ResidualFeatureDistillationBlock.forward_cat. cbv zeta.
  pose proof (LeakyReLU_forward_sample
                (ResidualFeatureDistillationBlock.leaky_relu self)) as HL.
  apply (result_rel_bind sample); [|intros; by apply Conv2d_forward_sample].
  apply (result_rel_bind sample); [by apply Conv2d_forward_sample|]. intros d1 d1' Hd1%HL.
  apply (result_rel_bind sample); [by apply Conv2d_forward_sample|]. intros c1 c1' Hc1.
  apply (result_rel_bind sample); [by apply torch_add_sample|]. intros r1 r1' Hr1%HL.
  apply (result_rel_bind sample); [by apply Conv2d_forward_sample|]. intros d2 d2' Hd2%HL.
  apply (result_rel_bind sample); [by apply Conv2d_forward_sample|]. intros c2 c2' Hc2.
  apply (result_rel_bind sample); [by apply torch_add_sample|]. intros r2 r2' Hr2%HL.
  apply (result_rel_bind sample); [by apply Conv2d_forward_sample|]. intros d3 d3' Hd3%HL.
  apply (result_rel_bind sample); [by apply Conv2d_forward_sample|]. intros c3 c3' Hc3.
  apply (result_rel_bind sample); [by apply torch_add_sample|]. intros r3 r3' Hr3%HL.
  apply (result_rel_bind sample); [by apply Conv2d_forward_sample|]. intros r4 r4' Hr4%HL.
  apply torch_cat_sample. solve_Forall2.
Qed.

End Batch.

Section BatchTheorems.
Context {F : Type} {scalar : Scalar F}.

Lemma sample_of_batch_select (n : nat) (x : Tensor F) :
  sample_of (dimN (shape x)) n x (batch_select n x).
Proof. split; [done|apply tensor_eq_refl]. Qed.

Lemma result_rel_sample_eq (N n : nat) (r r' : result RuntimeError (Tensor F)) :
  result_rel (sample_of N n) r r' →
  result_eq (E1:=RuntimeError) (E2:=RuntimeError) r' (batch_select n <$> r).
Proof. destruct r, r'; simpl; try done. by intros (_ & ?). Qed.

(** X7.  [ResidualDenseBlock.forward] treats the samples of a batch
    independently: run on the [n]-th sample alone it raises exactly when the
    run on the whole batch raises, and otherwise returns the [n]-th sample of
    what the batch run returns. *)
Theorem RDB_forward_batch_independent (self : ResidualDenseBlock.t F)
    (x : Tensor F) (n : nat) :
  n < dimN (shape x) →
  result_eq (E1:=RuntimeError) (E2:=RuntimeError)
    (ResidualDenseBlock.forward self (batch_select n x))
    (batch_select n <$> ResidualDenseBlock.forward self x).
Proof.
  intros Hn. apply (result_rel_sample_eq (dimN (shape x))).
  apply RDB_forward_sample; [done|apply sample_of_batch_select].
Qed.

(** X8.  [ResidualResidualDenseBlock.forward] treats the samples of a batch
    independently, in the same sense. *)
Theorem RRDB_forward_batch_independent (self : ResidualResidualDenseBlock.t F)
    (x : Tensor F) (n : nat) :
  n < dimN (shape x) →
  result_eq (E1:=RuntimeError) (E2:=RuntimeError)
    (ResidualResidualDenseBlock.forward self (batch_select n x))
    (batch_select n <$> ResidualResidualDenseBlock.forward self x).
Proof.
  intros Hn. apply (result_rel_sample_eq (dimN (shape x))).
  apply RRDB_forward_sample; [done|apply sample_of_batch_select].
Qed.

(** X9.  In [ResidualFeatureDistillationBlock.forward], everything up to the
    attention gate treats the samples of a batch independently: the fused
    tensor of the [n]-th sample alone is the [n]-th sample of the fused
    tensor of the batch. *)
Theorem RFDB_fused_batch_independent (self : ResidualFeatureDistillationBlock.t F)
    (x : Tensor F) (n : nat) :
  n < dimN (shape x) →
  result_eq (E1:=RuntimeError) (E2:=RuntimeError)
    (ResidualFeatureDistillationBlock.forward_cat self (batch_select n x)
       ≫= Conv2d_forward (ResidualFeatureDistillationBlock.conv_5 self))
    (batch_select n <$>
       (ResidualFeatureDistillationBlock.forward_cat self x
          ≫= Conv2d_forward (ResidualFeatureDistillationBlock.conv_5 self))).
Proof.
  intros Hn. apply (result_rel_sample_eq (dimN (shape x))).
  apply RFDB_fused_sample; [done|apply sample_of_batch_select].
Qed.

End BatchTheorems.

(** ** Without biases, zero goes to zero *)
Section ZeroInput.
Context {F : Type} {scalar : Scalar F} `{!ScalarLaws F}.

Lemma fmul_0_r (a : F) : fmul a fzero = fzero.
Proof. rewrite fmul_comm. apply fmul_0_l. Qed.

Lemma leaky_zero (slope : F) : leaky slope fzero = fzero.
Proof. unfold leaky. destruct (fle _ _); [done|apply fmul_0_r]. Qed.

Lemma padded_zero (x : Tensor F) (p n c i j : nat) :
  zero_tensor x → n < dimN (shape x) → c < dimC (shape x) →
  padded x p n c i j = fzero.
Proof.
  intros Hx Hn Hc. unfold padded. destruct (_ && _) eqn:E; [|done].
  repeat (apply andb_prop in E as [E ?]).
  repeat match goal with
         | H : (_ <=? _) = true |- _ => apply Nat.leb_le in H
         | H : (_ <? _) = true |- _ => apply Nat.ltb_lt in H
         end.
  apply Hx. unfold in_shape. lia.
Qed.

Lemma Conv2d_forward_zero (m : Conv2d F) (x y : Tensor F) :
  zero_bias m → zero_tensor x → Conv2d_forward m x = Ok y → zero_tensor y.
Proof.
  intros Hb Hx (-> & HC & _)%Conv2d_forward_Ok.
  intros n oc yy xx (Hn & Hoc & _). simpl in *.
  rewrite Hb by done. rewrite fsum_zero; [apply fadd_0_l|].
  intros ic Hic. apply fsum_zero. intros ky _. apply fsum_zero. intros kx _.
  rewrite padded_zero; [apply fmul_0_r|done..|lia].
Qed.

Lemma LeakyReLU_forward_zero (m : LeakyReLU F) (x : Tensor F) :
  zero_tensor x → zero_tensor (LeakyReLU_forward m x).
Proof. intros Hx n c h w Hin. simpl. rewrite Hx by done. apply leaky_zero. Qed.

Lemma torch_mul_zero (x : Tensor F) (k : F) : zero_tensor x → zero_tensor (torch_mul x k).
Proof. intros Hx n c h w Hin. simpl. rewrite Hx by done. apply fmul_0_l. Qed.

Lemma torch_add_zero (a b r : Tensor F) :
  zero_tensor a → zero_tensor b → torch_add a b = Ok r → zero_tensor r.
Proof.
  intros Ha Hb. unfold torch_add.
  destruct (broadcast_shape _ _) as [s|] eqn:Es; [|done]. intros [= <-].
  intros n c h w Hin. simpl in *.
  destruct (broadcast_shape_Some _ _ _ _ _ _ _ Es Hin) as [Hina Hinb].
  unfold expand. rewrite Ha, Hb by done. apply fadd_0_l.
Qed.

Lemma cat2_zero (a b r : Tensor F) :
  zero_tensor a → zero_tensor b → cat2 a b = Ok r → zero_tensor r.
Proof.
  intros Ha Hb (Hs%same_NHW_spec & Sr & Vr)%cat2_Ok.
  intros n c h w Hin. rewrite Sr in Hin. destruct Hin as (Hn & Hc & Hh & Hw).
  simpl in *. rewrite Vr. destruct (c <? _) eqn:Ec.
  - apply Nat.ltb_lt in Ec. apply Ha. by unfold in_shape.
  - apply Nat.ltb_ge in Ec. apply Hb. unfold in_shape. lia.
Qed.

Lemma torch_cat_zero (ts : list (Tensor F)) (r : Tensor F) :
  Forall zero_tensor ts → torch_cat ts = Ok r → zero_tensor r.
Proof.
  destruct ts as [|t rest]; [by intros _ [=]|]. simpl.
  intros [Ht Hrest]%Forall_cons. revert t Ht.
  induction Hrest as [|u rest Hu _ IH]; intros t Ht; simpl.
  - by intros [= <-].
  - destruct (cat2 t u) as [tu|e] eqn:E; [|by rewrite foldl_cat_Raise].
    apply IH. exact (cat2_zero t u tu Ht Hu E).
Qed.

Lemma dense_stage_zero (m : Conv2d F) (ts : list (Tensor F)) (c : Tensor F) :
  zero_bias m → Forall zero_tensor ts →
  torch_cat ts ≫= Conv2d_forward m = Ok c → zero_tensor c.
Proof.
  intros Hb Hts (t & Ht & Hc)%bind_Ok_inv.
  eapply Conv2d_forward_zero; [done| |done]. by eapply torch_cat_zero.
Qed.

Lemma RDB_forward_zero (self : ResidualDenseBlock.t F) (x y : Tensor F) :
  RDB_zero_bias self → zero_tensor x →
  ResidualDenseBlock.forward self x = Ok y → zero_tensor y.
Proof.
  intros (B1 & B2 & B3 & B4 & B5) Hx. unfold ResidualDenseBlock.forward.
  pose proof (LeakyReLU_forward_zero (ResidualDenseBlock.leaky_relu self)) as HL.
  intros (o1 & (c1 & E1 & ->)%fmap_Ok_inv & Hy)%bind_Ok_inv.
  apply (Conv2d_forward_zero _ _ _ B1 Hx), HL in E1.
  apply bind_Ok_inv in Hy as (o2 & (c2 & E2 & ->)%fmap_Ok_inv & Hy).
  apply dense_stage_zero, HL in E2; [|done|by repeat constructor].
  apply bind_Ok_inv in Hy as (o3 & (c3 & E3 & ->)%fmap_Ok_inv & Hy).
  apply dense_stage_zero, HL in E3; [|done|by repeat constructor].
  apply bind_Ok_inv in Hy as (o4 & (c4 & E4 & ->)%fmap_Ok_inv & Hy).
  apply dense_stage_zero, HL in E4; [|done|by repeat constructor].
  apply bind_Ok_inv in Hy as (o5 & (c5 & E5 & ->)%fmap_Ok_inv & Hy).
  apply dense_stage_zero in E5; [|done|by repeat constructor].
  unfold Identity_forward in Hy.
  eapply torch_add_zero; [|exact Hx|exact Hy]. by apply torch_mul_zero.
Qed.

(** X10.  In exact arithmetic, a dense block (with at least one channel and
    one growth channel) whose five convolutions have zero bias maps the zero
    tensor to the zero tensor, whatever their weights: on a zero input of the
    configured width (and non-empty spatial extent) [forward] returns a zero
    tensor. *)
Theorem RDB_zero_bias_zero_input (channels growth_channels : nat)
    (sd : ResidualDenseBlock.state_dict F) (x : Tensor F) :
  let self := ResidualDenseBlock.init channels growth_channels sd in
  RDB_zero_bias self → zero_tensor x →
  1 ≤ channels → 1 ≤ growth_channels →
  dimC (shape x) = channels → 1 ≤ dimH (shape x) → 1 ≤ dimW (shape x) →
  ∃ y, ResidualDenseBlock.forward self x = Ok y ∧ shape y = shape x ∧ zero_tensor y.
Proof.
  intros self Hb Hx Hch Hg HC HH HW.
  destruct (forward_returns channels growth_channels sd x Hch Hg HC HH HW)
    as (_ & y & Ey & Sy & _).
  exists y. split; [done|]. split; [done|]. by eapply RDB_forward_zero.
Qed.

(** X11.  The same for the residual stack (in exact arithmetic, with at
    least one channel and one growth channel): when the fifteen convolutions
    have zero bias, [forward] maps a zero input to a zero tensor. *)
Theorem RRDB_zero_bias_zero_input (channels growth_channels : nat)
    (sd : ResidualResidualDenseBlock.state_dict F) (x : Tensor F) :
  let self := ResidualResidualDenseBlock.init channels growth_channels sd in
  RDB_zero_bias (ResidualResidualDenseBlock.rdb_1 self) →
  RDB_zero_bias (ResidualResidualDenseBlock.rdb_2 self) →
  RDB_zero_bias (ResidualResidualDenseBlock.rdb_3 self) →
  zero_tensor x →
  1 ≤ channels → 1 ≤ growth_channels →
  dimC (shape x) = channels → 1 ≤ dimH (shape x) → 1 ≤ dimW (shape x) →
  ∃ y, ResidualResidualDenseBlock.forward self x = Ok y ∧ shape y = shape x
       ∧ zero_tensor y.
Proof.
  intros self B1 B2 B3 Hx Hch Hg HC HH HW.
  destruct (RRDB_forward_returns channels growth_channels sd x Hch Hg HC HH HW)
    as (y & Ey & Sy).
  exists y. split; [done|]. split; [done|].
  unfold ResidualResidualDenseBlock.forward in Ey.
  apply bind_Ok_inv in Ey as (o1 & E1 & Ey). apply RDB_forward_zero in E1; [|done..].
  apply bind_Ok_inv in Ey as (o2 & E2 & Ey). apply RDB_forward_zero in E2; [|done..].
  apply bind_Ok_inv in Ey as (o3 & E3 & Ey). apply RDB_forward_zero in E3; [|done..].
  eapply torch_add_zero; [|exact Hx|exact Ey]. by apply torch_mul_zero.
Qed.

End ZeroInput.

(** ** The further properties on concrete data *)

Lemma RDB_zero_last_conv_identity_witness :
  zero_conv (ResidualDenseBlock.conv_5
               (ResidualDenseBlock.init 2 1
                  (ResidualDenseBlock.mk_state Sample.centre Sample.centre Sample.centre
                     Sample.centre Sample.zero)))
  ∧ dimC (shape Sample.image) = 2
  ∧ 1 ≤ dimH (shape Sample.image) ∧ 1 ≤ dimW (shape Sample.image)
  ∧ ∃ y, ResidualDenseBlock.forward
           (ResidualDenseBlock.init 2 1
              (ResidualDenseBlock.mk_state Sample.centre Sample.centre Sample.centre
                 Sample.centre Sample.zero)) Sample.image = Ok y
         ∧ tensor_eq y Sample.image.
Proof.
  split; [apply zero_conv_zero|]. do 3 (split; [simpl; lia|]).
  apply (RDB_zero_last_conv_identity 2 1
           (ResidualDenseBlock.mk_state Sample.centre Sample.centre Sample.centre
              Sample.centre Sample.zero) Sample.image);
    [apply zero_conv_zero|simpl; lia..].
Defined.

Lemma forward_returns_new_buffer_witness :
  Sample.heap !! 0 = Some Sample.image
  ∧ ((∀ r h', Heap.RDB_forward Sample.rdb 0 Sample.heap = Ok (r, h') →
              Sample.heap !! r = None ∧ r ≠ 0)
     ∧ (∀ r h', Heap.RRDB_forward Sample.rrdb 0 Sample.heap = Ok (r, h') →
                Sample.heap !! r = None ∧ r ≠ 0)).
Proof.
  split; [reflexivity|].
  apply (forward_returns_new_buffer Sample.rdb Sample.rrdb Sample.heap 0 Sample.image).
  reflexivity.
Defined.

Lemma RDB_inplace_does_not_change_result_witness :
  RDB_same_but_inplace Sample.rdb
    (ResidualDenseBlock.mk
       (ResidualDenseBlock.conv_1 Sample.rdb) (ResidualDenseBlock.conv_2 Sample.rdb)
       (ResidualDenseBlock.conv_3 Sample.rdb) (ResidualDenseBlock.conv_4 Sample.rdb)
       (ResidualDenseBlock.conv_5 Sample.rdb) (nn_LeakyReLU (flit 0.2) false))
  ∧ Sample.heap !! 0 = Some Sample.image
  ∧ same_outcome
      (Heap.RDB_forward Sample.rdb 0 Sample.heap)
      (Heap.RDB_forward
         (ResidualDenseBlock.mk
            (ResidualDenseBlock.conv_1 Sample.rdb) (ResidualDenseBlock.conv_2 Sample.rdb)
            (ResidualDenseBlock.conv_3 Sample.rdb) (ResidualDenseBlock.conv_4 Sample.rdb)
            (ResidualDenseBlock.conv_5 Sample.rdb) (nn_LeakyReLU (flit 0.2) false))
         0 Sample.heap).
Proof.
  split; [by repeat split|]. split; [reflexivity|].
  apply (RDB_inplace_does_not_change_result Sample.rdb _ Sample.heap 0 Sample.image);
    [by repeat split|reflexivity].
Defined.

Lemma RDB_forward_batch_independent_witness :
  1 < dimN (shape (Sample.ones (mkShape 2 2 2 2)))
  ∧ result_eq (E1:=RuntimeError) (E2:=RuntimeError)
      (ResidualDenseBlock.forward Sample.rdb
         (batch_select 1 (Sample.ones (mkShape 2 2 2 2))))
      (batch_select 1 <$>
         ResidualDenseBlock.forward Sample.rdb (Sample.ones (mkShape 2 2 2 2))).
Proof.
  split; [simpl; lia|].
  apply (RDB_forward_batch_independent Sample.rdb (Sample.ones (mkShape 2 2 2 2)) 1).
  simpl. lia.
Defined.

Lemma RRDB_forward_batch_independent_witness :
  1 < dimN (shape (Sample.ones (mkShape 2 2 2 2)))
  ∧ result_eq (E1:=RuntimeError) (E2:=RuntimeError)
      (ResidualResidualDenseBlock.forward Sample.rrdb
         (batch_select 1 (Sample.ones (mkShape 2 2 2 2))))
      (batch_select 1 <$>
         ResidualResidualDenseBlock.forward Sample.rrdb (Sample.ones (mkShape 2 2 2 2))).
Proof.
  split; [simpl; lia|].
  apply (RRDB_forward_batch_independent Sample.rrdb (Sample.ones (mkShape 2 2 2 2)) 1).
  simpl. lia.
Defined.

Lemma RFDB_fused_batch_independent_witness :
  1 < dimN (shape (Sample.ones (mkShape 2 2 2 2)))
  ∧ result_eq (E1:=RuntimeError) (E2:=RuntimeError)
      (ResidualFeatureDistillationBlock.forward_cat Sample.rfdb
         (batch_select 1 (Sample.ones (mkShape 2 2 2 2)))
         ≫= Conv2d_forward (ResidualFeatureDistillationBlock.conv_5 Sample.rfdb))
      (batch_select 1 <$>
         (ResidualFeatureDistillationBlock.forward_cat Sample.rfdb
            (Sample.ones (mkShape 2 2 2 2))
            ≫= Conv2d_forward (ResidualFeatureDistillationBlock.conv_5 Sample.rfdb))).
Proof.
  split; [simpl; lia|].
  apply (RFDB_fused_batch_independent Sample.rfdb (Sample.ones (mkShape 2 2 2 2)) 1).
  simpl. lia.
Defined.

Lemma rdb_sample_zero_bias : RDB_zero_bias Sample.rdb.
Proof. by repeat split. Qed.

Lemma full_zero_tensor (s : Shape) : zero_tensor (full s (fzero : Qc)).
Proof. by intros n c h w _. Qed.

Lemma RDB_zero_bias_zero_input_witness :
  RDB_zero_bias Sample.rdb
  ∧ zero_tensor (full (mkShape 1 2 2 2) (fzero : Qc))
  ∧ dimC (shape (full (mkShape 1 2 2 2) (fzero : Qc))) = 2
  ∧ 1 ≤ dimH (shape (full (mkShape 1 2 2 2) (fzero : Qc)))
  ∧ 1 ≤ dimW (shape (full (mkShape 1 2 2 2) (fzero : Qc)))
  ∧ ∃ y, ResidualDenseBlock.forward Sample.rdb (full (mkShape 1 2 2 2) fzero) = Ok y
         ∧ shape y = shape (full (mkShape 1 2 2 2) (fzero : Qc)) ∧ zero_tensor y.
Proof.
  split; [exact rdb_sample_zero_bias|]. split; [apply full_zero_tensor|].
  do 3 (split; [simpl; lia|]).
  apply (RDB_zero_bias_zero_input 2 1 Sample.rdb_centre (full (mkShape 1 2 2 2) fzero));
    [exact rdb_sample_zero_bias|apply full_zero_tensor|simpl; lia..].
Defined.

Lemma RRDB_zero_bias_zero_input_witness :
  RDB_zero_bias (ResidualResidualDenseBlock.rdb_1 Sample.rrdb)
  ∧ RDB_zero_bias (ResidualResidualDenseBlock.rdb_2 Sample.rrdb)
  ∧ RDB_zero_bias (ResidualResidualDenseBlock.rdb_3 Sample.rrdb)
  ∧ zero_tensor (full (mkShape 1 2 2 2) (fzero : Qc))
  ∧ dimC (shape (full (mkShape 1 2 2 2) (fzero : Qc))) = 2
  ∧ 1 ≤ dimH (shape (full (mkShape 1 2 2 2) (fzero : Qc)))
  ∧ 1 ≤ dimW (shape (full (mkShape 1 2 2 2) (fzero : Qc)))
  ∧ ∃ y, ResidualResidualDenseBlock.forward Sample.rrdb (full (mkShape 1 2 2 2) fzero)
         = Ok y
         ∧ shape y = shape (full (mkShape 1 2 2 2) (fzero : Qc)) ∧ zero_tensor y.
Proof.
  do 3 (split; [exact rdb_sample_zero_bias|]). split; [apply full_zero_tensor|].
  do 3 (split; [simpl; lia|]).
  apply (RRDB_zero_bias_zero_input 2 1 Sample.rrdb_centre
           (full (mkShape 1 2 2 2) fzero));
    [exact rdb_sample_zero_bias|exact rdb_sample_zero_bias|exact rdb_sample_zero_bias
    |apply full_zero_tensor|simpl; lia..].
Defined.
